(** * Room and chat session managers of next-talk

    A shallow embedding of [src/context/RoomContext.tsx] and
    [src/context/ChatContext.tsx].  The React provider is a state machine:
    its [useState]/[useReducer] cells, the pending effect clean-ups and the
    objects it shares with its collaborators (the signaling socket [ws], the
    PeerJS [Peer] objects, the media tracks, the console) form one explicit
    state, and every handler and effect of the source is a function on it. *)

From stdpp Require Import gmap strings list fin_maps sorting.
From Stdlib Require Import ZArith.

Open Scope string_scope.
Open Scope list_scope.

(** ** Media streams and tracks

    A [MediaStreamTrack] is a mutable object shared by reference between the
    stream that lists it, the closures that captured that stream and the
    senders of the peer connections.  Tracks therefore live in a heap (a list
    indexed by allocation order) and a stream is the list of its tracks'
    references. *)

Module Media.

Inductive TrackKind := audio | video.

#[global] Instance TrackKind_eq_dec : EqDecision TrackKind.
Proof. solve_decision. Defined.

Record MediaStreamTrack := { kind : TrackKind; enabled : bool }.

Record MediaStream := { trackRefs : list nat }.

Definition hasKind (k : TrackKind) (heap : list MediaStreamTrack) (r : nat) : bool :=
  match heap !! r with
  | Some t => bool_decide (kind t = k)
  | None => false
  end.

(** [stream.getTracks()], [stream.getVideoTracks()], [stream.getAudioTracks()]. *)
Definition getTracks (st : MediaStream) : list nat := trackRefs st.

Definition getVideoTracks (heap : list MediaStreamTrack) (st : MediaStream) : list nat :=
  filter (fun r => hasKind video heap r = true) (trackRefs st).

Definition getAudioTracks (heap : list MediaStreamTrack) (st : MediaStream) : list nat :=
  filter (fun r => hasKind audio heap r = true) (trackRefs st).

(** [track.enabled = !track.enabled] *)
Definition flipEnabled (t : MediaStreamTrack) : MediaStreamTrack :=
  {| kind := kind t; enabled := negb (enabled t) |}.

(** [tracks.forEach((track) => { track.enabled = !track.enabled; ... })] on the
    heap. *)
Definition flipAll (refs : list nat) (heap : list MediaStreamTrack) : list MediaStreamTrack :=
  foldl (fun hp r => alter flipEnabled r hp) heap refs.

(** A capture hands out a stream of freshly allocated tracks. *)
Definition allocStream (ts : list MediaStreamTrack) (heap : list MediaStreamTrack)
  : MediaStream * list MediaStreamTrack :=
  ({| trackRefs := seq (length heap) (length ts) |}, heap ++ ts).

(** The three ways a call of [navigator.mediaDevices.getUserMedia] or
    [getDisplayMedia] can end: a synchronous exception, a promise that is
    fulfilled with a stream of new tracks, a promise that is rejected (the user
    denied the permission or cancelled the picker). *)
Inductive Capture :=
| SyncThrow (err : string)
| Resolves (tracks : list MediaStreamTrack)
| Rejects (err : string).

(** The eventual result of a promise that was returned. *)
Inductive Settled :=
| Fulfilled (tracks : list MediaStreamTrack)
| Rejected (err : string).

End Media.
Export Media.

(** ** The peer registry

    [peersReducer], its action creators and the [IPeer] type are imported from
    [../reducers] and [../types/peer]; those files are not part of the sources
    at hand. *)

Module Registry.

(** Modelled from the spec: the type [IPeer] of a registry entry (file
    [types/peer] is missing), a display name and an optional remote stream,
    either of which may be absent in an entry created by the other update. *)
Record IPeer := { peerName : option string; peerStream : option MediaStream }.

(** Modelled from the spec: the actions built by the action creators
    [addPeerStreamAction], [addPeerNameAction], [removePeerStreamAction] and
    [addAllPeersAction] of the missing [reducers] module. *)
Inductive PeerAction :=
| addPeerStreamAction (peerId : string) (st : MediaStream)
| addPeerNameAction (peerId : string) (name : string)
| removePeerStreamAction (peerId : string)
| addAllPeersAction (participants : gmap string IPeer).

(** Modelled from the spec: [peersReducer] of the missing [reducers] module,
    following section 4.1: [upsertName] and [upsertStream] insert or update one
    field and preserve the other, [remove] deletes the entry entirely (a no-op
    on an absent id), [replaceAll] replaces the full membership. *)
Definition peersReducer (state : gmap string IPeer) (a : PeerAction) : gmap string IPeer :=
  match a with
  | addPeerStreamAction id st =>
      <[id := {| peerName := state !! id ≫= peerName; peerStream := Some st |}]> state
  | addPeerNameAction id name =>
      <[id := {| peerName := Some name; peerStream := state !! id ≫= peerStream |}]> state
  | removePeerStreamAction id => delete id state
  | addAllPeersAction participants => participants
  end.

End Registry.
Export Registry.

(** ** The collaborators: signaling socket, PeerJS, console *)

(** What the providers publish with [ws.emit]. *)
Record IMessage := { content : string; timestamp : Z; author : string }.

Inductive WsEmit :=
| EmitChangeName (peerId userName roomId : string)
| EmitStartSharing (peerId roomId : string)
| EmitStopSharing
| EmitSendMessage (roomId : string) (messageData : IMessage).

(** What the signaling server delivers (the table of section 4.4). *)
Inductive WsMessage :=
| RoomCreated (roomId : string)
| GetUsers (participants : gmap string IPeer)
| UserDisconnected (peerId : string)
| UserStartedSharing (peerId : string)
| UserStoppedSharing
| NameChanged (peerId userName : string)
| UserJoined (peerId userName : string).

Definition eventName (m : WsMessage) : string :=
  match m with
  | RoomCreated _ => "room-created"
  | GetUsers _ => "get-users"
  | UserDisconnected _ => "user-disconnected"
  | UserStartedSharing _ => "user-started-sharing"
  | UserStoppedSharing => "user-stopped-sharing"
  | NameChanged _ _ => "name-changed"
  | UserJoined _ _ => "user-joined"
  end.

(** The callbacks the room provider passes to [ws.on].  Each constructor is one
    function literal of the source; the arguments of [on_user_joined] are
    the variables its closure captured when the effect ran ([me], [stream] and
    [userName]). *)
Inductive WsHandler :=
| on_room_created
| on_get_users
| on_user_disconnected
| on_user_started_sharing
| on_user_stopped_sharing
| on_name_changed
| on_user_joined (me : nat) (stream : MediaStream) (userName : string).

(** An [RTCRtpSender] of a peer connection: the track it sends, and whether
    its transceiver has been stopped ([replaceTrack] rejects with
    [InvalidStateError] on a stopped one). *)
Record RTCRtpSender := { senderTrack : option nat; senderStopped : bool }.

(** A PeerJS [MediaConnection]: the remote peer, the metadata of the call, the
    local stream attached by [call] or [answer], the senders of its
    [peerConnection], and the [peerId]s captured by its [on("stream")]
    callbacks, in registration order. *)
Record MediaConnection := {
  connPeer : string;
  connMetadata : string;
  connLocalStream : option MediaStream;
  connSenders : list RTCRtpSender;
  connStreamHandlers : list string
}.

(** The callback passed to [me.on("call")], with the [stream] it captured. *)
Inductive CallHandler := answerWith (stream : MediaStream).

(** A PeerJS [Peer]: its id ([null] once disconnected), the disconnected flag,
    the [on("call")] listeners, and [connections], the object that maps a
    remote id to the array of connections with it, in insertion order. *)
Record PeerObj := {
  peerObjId : option string;
  peerDisconnected : bool;
  peerCallHandlers : list CallHandler;
  peerConnections : list (string * list MediaConnection)
}.

Inductive ConsoleEntry :=
| ConsoleLog (msg : string)
| ConsoleError (err : string).

(** ** The room provider *)

Module Room.

Record RoomState := {
  (* UserContext *)
  userName : string;
  userId : string;
  (* useState and useReducer cells *)
  me : option nat;
  stream : option MediaStream;
  screenStream : option MediaStream;
  peers : gmap string IPeer;
  screenSharingId : string;
  roomId : string;
  isCameraOn : bool;
  isAudioOn : bool;
  (* clean-up functions returned by the last run of the two effects that have
     one: the identity effect's captures the [me] of the render it ran in *)
  identityCleanup : option (option nat);
  mediaCleanup : bool;
  (* the world outside the component *)
  wsListeners : list (string * WsHandler);
  wsEmitted : list WsEmit;
  peerHeap : list PeerObj;
  trackHeap : list MediaStreamTrack;
  pendingCamera : list Settled;
  console : list ConsoleEntry;
  escaped : list string;
  pushed : list string
}.

Definition set_userName v (s : RoomState) : RoomState :=
  {| userName := v; userId := userId s; me := me s; stream := stream s;
     screenStream := screenStream s; peers := peers s;
     screenSharingId := screenSharingId s; roomId := roomId s;
     isCameraOn := isCameraOn s; isAudioOn := isAudioOn s;
     identityCleanup := identityCleanup s; mediaCleanup := mediaCleanup s;
     wsListeners := wsListeners s; wsEmitted := wsEmitted s;
     peerHeap := peerHeap s; trackHeap := trackHeap s;
     pendingCamera := pendingCamera s; console := console s;
     escaped := escaped s; pushed := pushed s |}.
Definition set_userId v (s : RoomState) : RoomState :=
  {| userName := userName s; userId := v; me := me s; stream := stream s;
     screenStream := screenStream s; peers := peers s;
     screenSharingId := screenSharingId s; roomId := roomId s;
     isCameraOn := isCameraOn s; isAudioOn := isAudioOn s;
     identityCleanup := identityCleanup s; mediaCleanup := mediaCleanup s;
     wsListeners := wsListeners s; wsEmitted := wsEmitted s;
     peerHeap := peerHeap s; trackHeap := trackHeap s;
     pendingCamera := pendingCamera s; console := console s;
     escaped := escaped s; pushed := pushed s |}.
Definition set_me v (s : RoomState) : RoomState :=
  {| userName := userName s; userId := userId s; me := v; stream := stream s;
     screenStream := screenStream s; peers := peers s;
     screenSharingId := screenSharingId s; roomId := roomId s;
     isCameraOn := isCameraOn s; isAudioOn := isAudioOn s;
     identityCleanup := identityCleanup s; mediaCleanup := mediaCleanup s;
     wsListeners := wsListeners s; wsEmitted := wsEmitted s;
     peerHeap := peerHeap s; trackHeap := trackHeap s;
     pendingCamera := pendingCamera s; console := console s;
     escaped := escaped s; pushed := pushed s |}.
Definition set_stream v (s : RoomState) : RoomState :=
  {| userName := userName s; userId := userId s; me := me s; stream := v;
     screenStream := screenStream s; peers := peers s;
     screenSharingId := screenSharingId s; roomId := roomId s;
     isCameraOn := isCameraOn s; isAudioOn := isAudioOn s;
     identityCleanup := identityCleanup s; mediaCleanup := mediaCleanup s;
     wsListeners := wsListeners s; wsEmitted := wsEmitted s;
     peerHeap := peerHeap s; trackHeap := trackHeap s;
     pendingCamera := pendingCamera s; console := console s;
     escaped := escaped s; pushed := pushed s |}.
Definition set_screenStream v (s : RoomState) : RoomState :=
  {| userName := userName s; userId := userId s; me := me s;
     stream := stream s; screenStream := v; peers := peers s;
     screenSharingId := screenSharingId s; roomId := roomId s;
     isCameraOn := isCameraOn s; isAudioOn := isAudioOn s;
     identityCleanup := identityCleanup s; mediaCleanup := mediaCleanup s;
     wsListeners := wsListeners s; wsEmitted := wsEmitted s;
     peerHeap := peerHeap s; trackHeap := trackHeap s;
     pendingCamera := pendingCamera s; console := console s;
     escaped := escaped s; pushed := pushed s |}.
Definition set_peers v (s : RoomState) : RoomState :=
  {| userName := userName s; userId := userId s; me := me s;
     stream := stream s; screenStream := screenStream s; peers := v;
     screenSharingId := screenSharingId s; roomId := roomId s;
     isCameraOn := isCameraOn s; isAudioOn := isAudioOn s;
     identityCleanup := identityCleanup s; mediaCleanup := mediaCleanup s;
     wsListeners := wsListeners s; wsEmitted := wsEmitted s;
     peerHeap := peerHeap s; trackHeap := trackHeap s;
     pendingCamera := pendingCamera s; console := console s;
     escaped := escaped s; pushed := pushed s |}.
Definition set_screenSharingId v (s : RoomState) : RoomState :=
  {| userName := userName s; userId := userId s; me := me s;
     stream := stream s; screenStream := screenStream s; peers := peers s;
     screenSharingId := v; roomId := roomId s; isCameraOn := isCameraOn s;
     isAudioOn := isAudioOn s; identityCleanup := identityCleanup s;
     mediaCleanup := mediaCleanup s; wsListeners := wsListeners s;
     wsEmitted := wsEmitted s; peerHeap := peerHeap s;
     trackHeap := trackHeap s; pendingCamera := pendingCamera s;
     console := console s; escaped := escaped s; pushed := pushed s |}.
Definition set_roomId v (s : RoomState) : RoomState :=
  {| userName := userName s; userId := userId s; me := me s;
     stream := stream s; screenStream := screenStream s; peers := peers s;
     screenSharingId := screenSharingId s; roomId := v;
     isCameraOn := isCameraOn s; isAudioOn := isAudioOn s;
     identityCleanup := identityCleanup s; mediaCleanup := mediaCleanup s;
     wsListeners := wsListeners s; wsEmitted := wsEmitted s;
     peerHeap := peerHeap s; trackHeap := trackHeap s;
     pendingCamera := pendingCamera s; console := console s;
     escaped := escaped s; pushed := pushed s |}.
Definition set_isCameraOn v (s : RoomState) : RoomState :=
  {| userName := userName s; userId := userId s; me := me s;
     stream := stream s; screenStream := screenStream s; peers := peers s;
     screenSharingId := screenSharingId s; roomId := roomId s;
     isCameraOn := v; isAudioOn := isAudioOn s;
     identityCleanup := identityCleanup s; mediaCleanup := mediaCleanup s;
     wsListeners := wsListeners s; wsEmitted := wsEmitted s;
     peerHeap := peerHeap s; trackHeap := trackHeap s;
     pendingCamera := pendingCamera s; console := console s;
     escaped := escaped s; pushed := pushed s |}.
Definition set_isAudioOn v (s : RoomState) : RoomState :=
  {| userName := userName s; userId := userId s; me := me s;
     stream := stream s; screenStream := screenStream s; peers := peers s;
     screenSharingId := screenSharingId s; roomId := roomId s;
     isCameraOn := isCameraOn s; isAudioOn := v;
     identityCleanup := identityCleanup s; mediaCleanup := mediaCleanup s;
     wsListeners := wsListeners s; wsEmitted := wsEmitted s;
     peerHeap := peerHeap s; trackHeap := trackHeap s;
     pendingCamera := pendingCamera s; console := console s;
     escaped := escaped s; pushed := pushed s |}.
Definition set_identityCleanup v (s : RoomState) : RoomState :=
  {| userName := userName s; userId := userId s; me := me s;
     stream := stream s; screenStream := screenStream s; peers := peers s;
     screenSharingId := screenSharingId s; roomId := roomId s;
     isCameraOn := isCameraOn s; isAudioOn := isAudioOn s;
     identityCleanup := v; mediaCleanup := mediaCleanup s;
     wsListeners := wsListeners s; wsEmitted := wsEmitted s;
     peerHeap := peerHeap s; trackHeap := trackHeap s;
     pendingCamera := pendingCamera s; console := console s;
     escaped := escaped s; pushed := pushed s |}.
Definition set_mediaCleanup v (s : RoomState) : RoomState :=
  {| userName := userName s; userId := userId s; me := me s;
     stream := stream s; screenStream := screenStream s; peers := peers s;
     screenSharingId := screenSharingId s; roomId := roomId s;
     isCameraOn := isCameraOn s; isAudioOn := isAudioOn s;
     identityCleanup := identityCleanup s; mediaCleanup := v;
     wsListeners := wsListeners s; wsEmitted := wsEmitted s;
     peerHeap := peerHeap s; trackHeap := trackHeap s;
     pendingCamera := pendingCamera s; console := console s;
     escaped := escaped s; pushed := pushed s |}.
Definition set_wsListeners v (s : RoomState) : RoomState :=
  {| userName := userName s; userId := userId s; me := me s;
     stream := stream s; screenStream := screenStream s; peers := peers s;
     screenSharingId := screenSharingId s; roomId := roomId s;
     isCameraOn := isCameraOn s; isAudioOn := isAudioOn s;
     identityCleanup := identityCleanup s; mediaCleanup := mediaCleanup s;
     wsListeners := v; wsEmitted := wsEmitted s; peerHeap := peerHeap s;
     trackHeap := trackHeap s; pendingCamera := pendingCamera s;
     console := console s; escaped := escaped s; pushed := pushed s |}.
Definition set_wsEmitted v (s : RoomState) : RoomState :=
  {| userName := userName s; userId := userId s; me := me s;
     stream := stream s; screenStream := screenStream s; peers := peers s;
     screenSharingId := screenSharingId s; roomId := roomId s;
     isCameraOn := isCameraOn s; isAudioOn := isAudioOn s;
     identityCleanup := identityCleanup s; mediaCleanup := mediaCleanup s;
     wsListeners := wsListeners s; wsEmitted := v; peerHeap := peerHeap s;
     trackHeap := trackHeap s; pendingCamera := pendingCamera s;
     console := console s; escaped := escaped s; pushed := pushed s |}.
Definition set_peerHeap v (s : RoomState) : RoomState :=
  {| userName := userName s; userId := userId s; me := me s;
     stream := stream s; screenStream := screenStream s; peers := peers s;
     screenSharingId := screenSharingId s; roomId := roomId s;
     isCameraOn := isCameraOn s; isAudioOn := isAudioOn s;
     identityCleanup := identityCleanup s; mediaCleanup := mediaCleanup s;
     wsListeners := wsListeners s; wsEmitted := wsEmitted s; peerHeap := v;
     trackHeap := trackHeap s; pendingCamera := pendingCamera s;
     console := console s; escaped := escaped s; pushed := pushed s |}.
Definition set_trackHeap v (s : RoomState) : RoomState :=
  {| userName := userName s; userId := userId s; me := me s;
     stream := stream s; screenStream := screenStream s; peers := peers s;
     screenSharingId := screenSharingId s; roomId := roomId s;
     isCameraOn := isCameraOn s; isAudioOn := isAudioOn s;
     identityCleanup := identityCleanup s; mediaCleanup := mediaCleanup s;
     wsListeners := wsListeners s; wsEmitted := wsEmitted s;
     peerHeap := peerHeap s; trackHeap := v;
     pendingCamera := pendingCamera s; console := console s;
     escaped := escaped s; pushed := pushed s |}.
Definition set_pendingCamera v (s : RoomState) : RoomState :=
  {| userName := userName s; userId := userId s; me := me s;
     stream := stream s; screenStream := screenStream s; peers := peers s;
     screenSharingId := screenSharingId s; roomId := roomId s;
     isCameraOn := isCameraOn s; isAudioOn := isAudioOn s;
     identityCleanup := identityCleanup s; mediaCleanup := mediaCleanup s;
     wsListeners := wsListeners s; wsEmitted := wsEmitted s;
     peerHeap := peerHeap s; trackHeap := trackHeap s; pendingCamera := v;
     console := console s; escaped := escaped s; pushed := pushed s |}.
Definition set_console v (s : RoomState) : RoomState :=
  {| userName := userName s; userId := userId s; me := me s;
     stream := stream s; screenStream := screenStream s; peers := peers s;
     screenSharingId := screenSharingId s; roomId := roomId s;
     isCameraOn := isCameraOn s; isAudioOn := isAudioOn s;
     identityCleanup := identityCleanup s; mediaCleanup := mediaCleanup s;
     wsListeners := wsListeners s; wsEmitted := wsEmitted s;
     peerHeap := peerHeap s; trackHeap := trackHeap s;
     pendingCamera := pendingCamera s; console := v; escaped := escaped s;
     pushed := pushed s |}.
Definition set_escaped v (s : RoomState) : RoomState :=
  {| userName := userName s; userId := userId s; me := me s;
     stream := stream s; screenStream := screenStream s; peers := peers s;
     screenSharingId := screenSharingId s; roomId := roomId s;
     isCameraOn := isCameraOn s; isAudioOn := isAudioOn s;
     identityCleanup := identityCleanup s; mediaCleanup := mediaCleanup s;
     wsListeners := wsListeners s; wsEmitted := wsEmitted s;
     peerHeap := peerHeap s; trackHeap := trackHeap s;
     pendingCamera := pendingCamera s; console := console s; escaped := v;
     pushed := pushed s |}.
Definition set_pushed v (s : RoomState) : RoomState :=
  {| userName := userName s; userId := userId s; me := me s;
     stream := stream s; screenStream := screenStream s; peers := peers s;
     screenSharingId := screenSharingId s; roomId := roomId s;
     isCameraOn := isCameraOn s; isAudioOn := isAudioOn s;
     identityCleanup := identityCleanup s; mediaCleanup := mediaCleanup s;
     wsListeners := wsListeners s; wsEmitted := wsEmitted s;
     peerHeap := peerHeap s; trackHeap := trackHeap s;
     pendingCamera := pendingCamera s; console := console s;
     escaped := escaped s; pushed := v |}.


(** The state of a freshly mounted provider: the initial values passed to
    [useState] and [useReducer], nothing subscribed, nothing allocated. *)
Definition initialRoom (name uid : string) : RoomState :=
  {| userName := name; userId := uid; me := None; stream := None;
     screenStream := None; peers := ∅; screenSharingId := ""; roomId := "";
     isCameraOn := true; isAudioOn := true;
     identityCleanup := None; mediaCleanup := false;
     wsListeners := []; wsEmitted := []; peerHeap := []; trackHeap := [];
     pendingCamera := []; console := []; escaped := []; pushed := [] |}.

(** JavaScript truthiness of a string: [if (screenSharingId)], [if (!userId)]. *)
Definition truthy (x : string) : bool := negb (bool_decide (x = "")).

(** *** Primitive effects on the collaborators *)

Definition consoleWrite (e : ConsoleEntry) (s : RoomState) : RoomState :=
  set_console (console s ++ [e]) s.

(** An error that no handler caught: an uncaught exception of an event
    handler or an unhandled promise rejection. *)
Definition escape (err : string) (s : RoomState) : RoomState :=
  set_escaped (escaped s ++ [err]) s.

(** Modelled from the spec: the signaling socket [ws] of the missing [lib]
    module, a publish/subscribe channel with emit/on/off semantics: [emit]
    publishes, [on] adds a listener for an event name, and [off] with an event
    name alone detaches every listener of that name. *)
Definition wsEmit (e : WsEmit) (s : RoomState) : RoomState :=
  set_wsEmitted (wsEmitted s ++ [e]) s.

(** Modelled from the spec: [ws.on(name, handler)] of the missing [lib]
    module. *)
Definition wsOn (name : string) (h : WsHandler) (s : RoomState) : RoomState :=
  set_wsListeners (wsListeners s ++ [(name, h)]) s.

(** Modelled from the spec: [ws.off(name)] of the missing [lib] module. *)
Definition wsOff (name : string) (s : RoomState) : RoomState :=
  set_wsListeners (filter (fun l => l.1 ≠ name) (wsListeners s)) s.

(** [dispatch] of [useReducer(peersReducer, {})]. *)
Definition dispatch (a : PeerAction) (s : RoomState) : RoomState :=
  set_peers (peersReducer (peers s) a) s.

(** *** PeerJS *)

Definition isAlnum (c : Ascii.ascii) : bool :=
  let n := Ascii.nat_of_ascii c in
  (Nat.leb 48 n && Nat.leb n 57) || (Nat.leb 65 n && Nat.leb n 90)
  || (Nat.leb 97 n && Nat.leb n 122).

Definition isSeparator (c : Ascii.ascii) : bool :=
  let n := Ascii.nat_of_ascii c in
  Nat.eqb n 32 || Nat.eqb n 95 || Nat.eqb n 45.

(** The rest of an id after a separator ([afterAlnum = false]) or after an
    alphanumeric character ([afterAlnum = true]). *)
Fixpoint validGroups (afterAlnum : bool) (id : string) : bool :=
  match id with
  | EmptyString => afterAlnum
  | String c rest =>
      if isAlnum c then validGroups true rest
      else if isSeparator c then afterAlnum && validGroups false rest
      else false
  end.

(** PeerJS [util.validateId]: the empty id, or groups of letters and digits
    separated by single spaces, underscores or hyphens. *)
Definition validateId (id : string) : bool :=
  bool_decide (id = "") || validGroups false id.

(** [new Peer(userId, options)] with a non-empty [userId]: a valid id is the
    peer's id at once; an invalid one is never taken: the peer has no id and
    will abort itself (event [PeerDestroyed] below). *)
Definition newPeer (id : string) : PeerObj :=
  {| peerObjId := if validateId id then Some id else None;
     peerDisconnected := false;
     peerCallHandlers := []; peerConnections := [] |}.

(** [peer.disconnect()]: closes the link to the rendezvous server and forgets
    the id; a second call does nothing.  Existing connections are kept. *)
Definition disconnectPeer (p : PeerObj) : PeerObj :=
  if peerDisconnected p then p
  else {| peerObjId := None; peerDisconnected := true;
          peerCallHandlers := peerCallHandlers p;
          peerConnections := peerConnections p |}.

Definition peerDisconnect (h : nat) (s : RoomState) : RoomState :=
  set_peerHeap (alter disconnectPeer h (peerHeap s)) s.

(** [peer.on("call", handler)] *)
Definition addCallHandler (c : CallHandler) (p : PeerObj) : PeerObj :=
  {| peerObjId := peerObjId p; peerDisconnected := peerDisconnected p;
     peerCallHandlers := peerCallHandlers p ++ [c];
     peerConnections := peerConnections p |}.

Definition peerOnCall (h : nat) (c : CallHandler) (s : RoomState) : RoomState :=
  set_peerHeap (alter (addCallHandler c) h (peerHeap s)) s.

Definition set_peerConnections (cs : list (string * list MediaConnection)) (p : PeerObj) : PeerObj :=
  {| peerObjId := peerObjId p; peerDisconnected := peerDisconnected p;
     peerCallHandlers := peerCallHandlers p; peerConnections := cs |}.

(** [peer.destroy()]: disconnects and forgets every connection. *)
Definition destroyPeer (p : PeerObj) : PeerObj :=
  set_peerConnections [] (disconnectPeer p).

Definition peerDestroy (h : nat) (s : RoomState) : RoomState :=
  set_peerHeap (alter destroyPeer h (peerHeap s)) s.

(** PeerJS [_removeConnection(connection)] for connection number [i] with
    remote id [k]: it is spliced out of its array; the array stays, also when
    it is empty now. *)
Definition removeConnection (k : string) (i : nat)
    (cs : list (string * list MediaConnection)) : list (string * list MediaConnection) :=
  map (fun e => if bool_decide (e.1 = k) then (e.1, delete i e.2) else e) cs.

Definition closeConnection (h : nat) (k : string) (i : nat) (s : RoomState) : RoomState :=
  set_peerHeap
    (alter (fun p => set_peerConnections (removeConnection k i (peerConnections p)) p)
       h (peerHeap s)) s.

(** PeerJS [_addConnection(peerId, connection)]: push onto the array of that
    remote id, creating the array on first use. *)
Fixpoint addConnection (k : string) (c : MediaConnection)
    (cs : list (string * list MediaConnection)) : list (string * list MediaConnection) :=
  match cs with
  | [] => [(k, [c])]
  | (k', conns) :: rest =>
      if bool_decide (k' = k) then (k', conns ++ [c]) :: rest
      else (k', conns) :: addConnection k c rest
  end.

(** The senders a connection gets from the local stream attached to it: one
    per track. *)
Definition sendersOf (st : MediaStream) : list RTCRtpSender :=
  map (fun r => {| senderTrack := Some r; senderStopped := false |}) (getTracks st).

(** [const call = me.call(peerId, stream, { metadata: { userName } })] followed
    by [call.on("stream", ...)], whose callback captures [peerId].  PeerJS
    returns [undefined] from [call] on a disconnected peer; [None] stands for
    that (and for a dangling handle). *)
Definition outboundCall (h : nat) (peerId : string) (st : MediaStream) (name : string)
    (s : RoomState) : option RoomState :=
  match peerHeap s !! h with
  | Some p =>
      if peerDisconnected p then None
      else
        let c := {| connPeer := peerId; connMetadata := name;
                    connLocalStream := Some st; connSenders := sendersOf st;
                    connStreamHandlers := [peerId] |} in
        Some (set_peerHeap
                (<[h := set_peerConnections (addConnection peerId c (peerConnections p)) p]>
                   (peerHeap s)) s)
  | None => None
  end.

(** *** Handlers of the room provider *)

Definition getUsers (participants : gmap string IPeer) (s : RoomState) : RoomState :=
  dispatch (addAllPeersAction participants) s.

Definition removePeer (peerId : string) (s : RoomState) : RoomState :=
  dispatch (removePeerStreamAction peerId) s.

Definition nameChangedHandler (peerId name : string) (s : RoomState) : RoomState :=
  dispatch (addPeerNameAction peerId name) s.

(** [(peerId) => setScreenSharingId(peerId)] and [() => setScreenSharingId("")],
    the listeners of user-started-sharing and user-stopped-sharing: the
    arbiter's [requestStart] and [requestStop]. *)
Definition requestStart (byId : string) (s : RoomState) : RoomState :=
  set_screenSharingId byId s.

Definition requestStop (s : RoomState) : RoomState :=
  set_screenSharingId "" s.

Definition enterRoom (room : string) (s : RoomState) : RoomState :=
  set_pushed (pushed s ++ ["/room/" +:+ room]) (consoleWrite (ConsoleLog "room-created") s).

(** The listener of user-joined installed by the media effect, with the
    values its closure captured. *)
Definition userJoined (h : nat) (st : MediaStream) (localName : string)
    (peerId name : string) (s : RoomState) : RoomState :=
  match outboundCall h peerId st localName s with
  | Some s1 => dispatch (addPeerNameAction peerId name) s1
  | None => escape "TypeError" s
  end.

Definition applyHandler (h : WsHandler) (m : WsMessage) (s : RoomState) : RoomState :=
  match h, m with
  | on_room_created, RoomCreated room => enterRoom room s
  | on_get_users, GetUsers participants => getUsers participants s
  | on_user_disconnected, UserDisconnected peerId => removePeer peerId s
  | on_user_started_sharing, UserStartedSharing peerId => requestStart peerId s
  | on_user_stopped_sharing, UserStoppedSharing => requestStop s
  | on_name_changed, NameChanged peerId name => nameChangedHandler peerId name s
  | on_user_joined h st localName, UserJoined peerId name =>
      userJoined h st localName peerId name s
  | _, _ => s
  end.

(** Delivery of one signaling message: every listener registered under the
    message's event name runs, in registration order, on the listener list as it
    was when the message arrived. *)
Definition deliver (m : WsMessage) (ls : list (string * WsHandler)) (s : RoomState)
  : RoomState :=
  foldl (fun acc l => if bool_decide (l.1 = eventName m) then applyHandler l.2 m acc else acc)
        s ls.

Definition wsReceive (m : WsMessage) (s : RoomState) : RoomState :=
  deliver m (wsListeners s) s.

(** *** Screen sharing *)

(** [sender.track?.kind === "video"] *)
Definition isVideoSender (heap : list MediaStreamTrack) (sd : RTCRtpSender) : bool :=
  match senderTrack sd with
  | Some r => hasKind video heap r
  | None => false
  end.

(** [getSenders().find(video)?.replaceTrack(videoTrack).catch(console.error)]:
    the first sender that carries a video track gets the new one; without such
    a sender the optional chain does nothing; a rejection of [replaceTrack] is
    written to the console and changes nothing. *)
Fixpoint replaceVideoTrack (heap : list MediaStreamTrack) (videoTrack : nat)
    (senders : list RTCRtpSender) : list RTCRtpSender * list ConsoleEntry :=
  match senders with
  | [] => ([], [])
  | sd :: rest =>
      if isVideoSender heap sd then
        if senderStopped sd then (sd :: rest, [ConsoleError "InvalidStateError"])
        else ({| senderTrack := Some videoTrack; senderStopped := false |} :: rest, [])
      else
        let '(rest', out) := replaceVideoTrack heap videoTrack rest in
        (sd :: rest', out)
  end.

Definition set_connSenders (sds : list RTCRtpSender) (c : MediaConnection) : MediaConnection :=
  {| connPeer := connPeer c; connMetadata := connMetadata c;
     connLocalStream := connLocalStream c; connSenders := sds;
     connStreamHandlers := connStreamHandlers c |}.

(** The order in which [Object.values] visits the entries of
    [me.connections]: the keys that are array indices (canonical decimal
    numerals below 2^32 - 1) first, in ascending numeric order, then the other
    keys in insertion order.  Entries are named by their position in the
    map. *)
Definition digitOf (c : Ascii.ascii) : option N :=
  let n := Ascii.N_of_ascii c in
  if (N.leb 48 n && N.leb n 57)%bool then Some (n - 48)%N else None.

Fixpoint parseDigits (acc : N) (k : string) : option N :=
  match k with
  | EmptyString => Some acc
  | String c rest =>
      match digitOf c with
      | Some d => parseDigits (10 * acc + d)%N rest
      | None => None
      end
  end.

Definition arrayIndex (k : string) : option N :=
  match k with
  | EmptyString => None
  | String c rest =>
      if N.eqb (Ascii.N_of_ascii c) 48
      then (if bool_decide (rest = "") then Some 0%N else None)
      else match parseDigits 0 k with
           | Some n => if N.leb n 4294967294 then Some n else None
           | None => None
           end
  end.

Definition indexKey (cs : list (string * list MediaConnection)) (i : nat) : option N :=
  match cs !! i with
  | Some e => arrayIndex e.1
  | None => None
  end.

Definition keyLe (cs : list (string * list MediaConnection)) (i j : nat) : Prop :=
  (default 0 (indexKey cs i) ≤ default 0 (indexKey cs j))%N.

#[global] Instance keyLe_dec cs i j : Decision (keyLe cs i j).
Proof. unfold keyLe. apply _. Defined.

Definition objectOrder (cs : list (string * list MediaConnection)) : list nat :=
  let positions := seq 0 (length cs) in
  merge_sort (keyLe cs) (filter (fun i => is_Some (indexKey cs i)) positions)
  ++ filter (fun i => ¬ is_Some (indexKey cs i)) positions.

(** [connection.peerConnection] exists once the connection has a local
    stream: PeerJS creates it in [call] and in [answer]; a call received and
    not yet answered has none. *)
Definition hasPeerConnection (c : MediaConnection) : bool :=
  match connLocalStream c with
  | Some _ => true
  | None => false
  end.

(** The body of the [forEach] for a stream with video track [vt], over the
    positions still to visit.  Only element 0 of each array is touched, in
    place; reading [connection[0].peerConnection] of an empty array, or
    [.getSenders()] of a missing peer connection, throws a [TypeError], which
    ends the loop.  The result is the updated connections, the console output
    and the exception, if any. *)
Fixpoint switchLoop (heap : list MediaStreamTrack) (vt : nat) (order : list nat)
    (cs : list (string * list MediaConnection))
  : list (string * list MediaConnection) * list ConsoleEntry * option string :=
  match order with
  | [] => (cs, [], None)
  | i :: rest =>
      match cs !! i with
      | Some (k, c0 :: more) =>
          if hasPeerConnection c0 then
            let '(sds, out0) := replaceVideoTrack heap vt (connSenders c0) in
            let '(cs', out, thrown) :=
              switchLoop heap vt rest (<[i := (k, set_connSenders sds c0 :: more)]> cs) in
            (cs', out0 ++ out, thrown)
          else (cs, [], Some "TypeError")
      | Some (k, []) => (cs, [], Some "TypeError")
      | None => switchLoop heap vt rest cs
      end
  end.

(** The [forEach] over [Object.values(me.connections || {})]; without a
    video track in the new stream its body does nothing. *)
Definition switchConnections (heap : list MediaStreamTrack) (videoTrack : option nat)
    (cs : list (string * list MediaConnection))
  : list (string * list MediaConnection) * list ConsoleEntry * option string :=
  match videoTrack with
  | Some vt => switchLoop heap vt (objectOrder cs) cs
  | None => (cs, [], None)
  end.

(** [switchStream(newStream)]; the second component is the exception thrown
    out of it, if any. *)
Definition switchStream (newStream : MediaStream) (s : RoomState) : RoomState * option string :=
  match me s with
  | None => (s, None)
  | Some h =>
      match peerHeap s !! h with
      | None => (s, None)
      | Some p =>
          let s1 := set_screenSharingId (default "" (peerObjId p)) s in
          let videoTrack := head (getVideoTracks (trackHeap s) newStream) in
          let '(cs, out, thrown) :=
            switchConnections (trackHeap s) videoTrack (peerConnections p) in
          let s2 := set_peerHeap (<[h := set_peerConnections cs p]> (peerHeap s1)) s1 in
          (set_console (console s2 ++ out) s2, thrown)
      end
  end.

Definition escapeIf (thrown : option string) (s : RoomState) : RoomState :=
  match thrown with
  | Some err => escape err s
  | None => s
  end.

(** [shareScreen()], run to the settlement of the capture promise.  Nothing
    catches a failed capture or an exception of the [then] callback. *)
Definition shareScreen (capture : Capture) (s : RoomState) : RoomState :=
  if truthy (screenSharingId s) then
    match capture with
    | Resolves tracks =>
        let '(st, heap) := allocStream tracks (trackHeap s) in
        let '(s1, thrown) := switchStream st (set_trackHeap heap s) in
        escapeIf thrown s1
    | SyncThrow err | Rejects err => escape err s
    end
  else
    match capture with
    | Resolves tracks =>
        let '(st, heap) := allocStream tracks (trackHeap s) in
        let '(s1, thrown) := switchStream st (set_trackHeap heap s) in
        match thrown with
        | Some err => escape err s1
        | None => set_screenStream (Some st) s1
        end
    | SyncThrow err | Rejects err => escape err s
    end.

(** *** Effects *)

(** [useEffect(..., [userName, userId, roomId])] *)
Definition nameEffect (s : RoomState) : RoomState :=
  wsEmit (EmitChangeName (userId s) (userName s) (roomId s)) s.

(** [useEffect(..., [screenSharingId, roomId])] *)
Definition sharingEffect (s : RoomState) : RoomState :=
  if truthy (screenSharingId s)
  then wsEmit (EmitStartSharing (screenSharingId s) (roomId s)) s
  else wsEmit EmitStopSharing s.

(** The camera request of the identity effect: a synchronous exception is
    caught and written to the console; otherwise a promise is outstanding,
    whose fulfilment runs [setStream] and whose rejection has no handler. *)
Definition requestCamera (camera : Capture) (s : RoomState) : RoomState :=
  match camera with
  | SyncThrow err => consoleWrite (ConsoleError err) s
  | Resolves tracks => set_pendingCamera (pendingCamera s ++ [Fulfilled tracks]) s
  | Rejects err => set_pendingCamera (pendingCamera s ++ [Rejected err]) s
  end.

(** Settlement of the oldest outstanding camera promise. *)
Definition cameraSettled (s : RoomState) : RoomState :=
  match pendingCamera s with
  | [] => s
  | Fulfilled tracks :: rest =>
      let '(st, heap) := allocStream tracks (trackHeap s) in
      set_stream (Some st) (set_trackHeap heap (set_pendingCamera rest s))
  | Rejected err :: rest => escape err (set_pendingCamera rest s)
  end.

(** Body of [useEffect(..., [userId])].  The clean-up it returns closes over
    the [me] of the render the effect ran in, that is the value before
    [setMe(peer)] takes effect. *)
Definition identityEffect (camera : Capture) (s : RoomState) : RoomState :=
  if truthy (userId s) then
    let h := length (peerHeap s) in
    let s1 := set_peerHeap (peerHeap s ++ [newPeer (userId s)]) s in
    let s2 := consoleWrite (ConsoleLog "peer") s1 in
    let s3 := set_me (Some h) s2 in
    let s4 := requestCamera camera s3 in
    let s5 := wsOn "name-changed" on_name_changed
             (wsOn "user-stopped-sharing" on_user_stopped_sharing
             (wsOn "user-started-sharing" on_user_started_sharing
             (wsOn "user-disconnected" on_user_disconnected
             (wsOn "get-users" on_get_users
             (wsOn "room-created" on_room_created s4))))) in
    set_identityCleanup (Some (me s)) s5
  else
    set_identityCleanup None (consoleWrite (ConsoleLog "Waiting for userId...") s).

(** The clean-up of the identity effect; [captured] is the [me] of its
    closure: [me?.disconnect()]. *)
Definition identityCleanupBody (captured : option nat) (s : RoomState) : RoomState :=
  let s1 := wsOff "name-changed"
           (wsOff "user-joined"
           (wsOff "user-stopped-sharing"
           (wsOff "user-started-sharing"
           (wsOff "user-disconnected"
           (wsOff "get-users"
           (wsOff "room-created" s)))))) in
  match captured with
  | Some h => peerDisconnect h s1
  | None => s1
  end.

Definition runIdentityCleanup (s : RoomState) : RoomState :=
  match identityCleanup s with
  | Some captured => identityCleanupBody captured (set_identityCleanup None s)
  | None => s
  end.

(** React runs the pending clean-up of an effect before it runs the effect
    again. *)
Definition runIdentityEffect (camera : Capture) (s : RoomState) : RoomState :=
  identityEffect camera (runIdentityCleanup s).

(** Body of [useEffect(..., [me, stream, userName])]. *)
Definition mediaEffect (s : RoomState) : RoomState :=
  match me s, stream s with
  | Some h, Some st =>
      set_mediaCleanup true
        (peerOnCall h (answerWith st)
           (wsOn "user-joined" (on_user_joined h st (userName s)) s))
  | _, _ => set_mediaCleanup false s
  end.

Definition mediaCleanupBody (s : RoomState) : RoomState := wsOff "user-joined" s.

Definition runMediaCleanup (s : RoomState) : RoomState :=
  if mediaCleanup s then mediaCleanupBody (set_mediaCleanup false s) else s.

Definition runMediaEffect (s : RoomState) : RoomState :=
  mediaEffect (runMediaCleanup s).

(** *** Inbound calls and remote streams *)

(** [call.answer(stream)] (ignored by PeerJS once a local stream is attached)
    and [call.on("stream", ...)], whose callback captures [call.peer]. *)
Definition answerCall (st : MediaStream) (c : MediaConnection) : MediaConnection :=
  {| connPeer := connPeer c; connMetadata := connMetadata c;
     connLocalStream := match connLocalStream c with
                        | Some old => Some old
                        | None => Some st
                        end;
     connSenders := match connLocalStream c with
                    | Some _ => connSenders c
                    | None => sendersOf st
                    end;
     connStreamHandlers := connStreamHandlers c ++ [connPeer c] |}.

(** Update of the connection most recently added for remote id [k]. *)
Definition alterCall (f : MediaConnection → MediaConnection) (k : string)
    (cs : list (string * list MediaConnection)) : list (string * list MediaConnection) :=
  map (fun e => if bool_decide (e.1 = k)
                then (e.1, alter f (pred (length e.2)) e.2) else e) cs.

(** The callback of [me.on("call")] with its captured [stream], run on the
    call that peer [h] just received from [caller]. *)
Definition onCall (h : nat) (caller name : string) (st : MediaStream)
    (s : RoomState) : RoomState :=
  let s1 := dispatch (addPeerNameAction caller name) s in
  set_peerHeap
    (alter (fun p => set_peerConnections (alterCall (answerCall st) caller (peerConnections p)) p)
       h (peerHeap s1)) s1.

(** PeerJS receives an offer for peer [h]: it records the connection and
    emits "call" to every listener.  A disconnected peer receives nothing. *)
Definition incomingCall (h : nat) (caller name : string) (s : RoomState) : RoomState :=
  match peerHeap s !! h with
  | Some p =>
      if peerDisconnected p then s
      else
        let c := {| connPeer := caller; connMetadata := name; connLocalStream := None;
                    connSenders := []; connStreamHandlers := [] |} in
        let s1 := set_peerHeap
                    (<[h := set_peerConnections (addConnection caller c (peerConnections p)) p]>
                       (peerHeap s)) s in
        foldl (fun acc ch => match ch with answerWith st => onCall h caller name st acc end)
              s1 (peerCallHandlers p)
  | None => s
  end.

(** [me.connections[k]], empty when the remote id is unknown. *)
Fixpoint connectionsWith (k : string) (cs : list (string * list MediaConnection))
  : list MediaConnection :=
  match cs with
  | [] => []
  | (k', conns) :: rest => if bool_decide (k' = k) then conns else connectionsWith k rest
  end.

(** Connection number [i] of peer [h] with remote id [k] delivers the remote
    stream: every [on("stream")] callback dispatches [addPeerStreamAction]. *)
Definition remoteStream (h : nat) (k : string) (i : nat) (tracks : list MediaStreamTrack)
    (s : RoomState) : RoomState :=
  match peerHeap s !! h with
  | Some p =>
      match connectionsWith k (peerConnections p) !! i with
      | Some c =>
          let '(st, heap) := allocStream tracks (trackHeap s) in
          foldl (fun acc id => dispatch (addPeerStreamAction id st) acc)
                (set_trackHeap heap s) (connStreamHandlers c)
      | None => s
      end
  | None => s
  end.

(** *** Local media toggles *)

(** [handleCameraToggle] as created by the render of state [render]: [stream]
    and [isCameraOn] are constants of that render, closed over by the function;
    the tracks it flips and the cell it sets are those of the state [s] it is
    called in. *)
Definition handleCameraToggleOf (render s : RoomState) : RoomState :=
  match stream render with
  | Some st =>
      let tracks := getVideoTracks (trackHeap s) st in
      foldl (fun acc track =>
               set_isCameraOn (negb (isCameraOn render))
                 (set_trackHeap (alter flipEnabled track (trackHeap acc)) acc))
            s tracks
  | None => s
  end.

Definition handleAudioToggleOf (render s : RoomState) : RoomState :=
  match stream render with
  | Some st =>
      let tracks := getAudioTracks (trackHeap s) st in
      foldl (fun acc track =>
               set_isAudioOn (negb (isAudioOn render))
                 (set_trackHeap (alter flipEnabled track (trackHeap acc)) acc))
            s tracks
  | None => s
  end.

(** The toggle the user triggers: the handler of the current render. *)
Definition handleCameraToggle (s : RoomState) : RoomState := handleCameraToggleOf s s.

Definition handleAudioToggle (s : RoomState) : RoomState := handleAudioToggleOf s s.

(** *** The provider as a state machine *)

(** Everything that can happen to a mounted provider: an effect runs (React
    runs it again when one of its dependencies changed; here it may run at any
    time, which covers every schedule), the component unmounts, a promise
    settles, the signaling server or a remote peer delivers something, the user
    presses a button, the user context or the room id changes, PeerJS loses
    the link of a peer to the rendezvous server ([PeerDisconnected]), aborts a
    peer whose id is invalid or taken ([PeerDestroyed]), or closes a
    connection ([ConnectionClosed]).  Values that come from outside (capture
    results, remote tracks) travel with the event. *)
Inductive Event :=
| RunIdentityEffect (camera : Capture)
| RunNameEffect
| RunSharingEffect
| RunMediaEffect
| Unmount
| CameraSettled
| Receive (m : WsMessage)
| IncomingCall (h : nat) (caller name : string)
| RemoteStream (h : nat) (peerId : string) (i : nat) (tracks : list MediaStreamTrack)
| ClickShareScreen (capture : Capture)
| ClickCamera
| ClickAudio
| SetRoomId (id : string)
| SetUserName (name : string)
| SetUserId (id : string)
| PeerDisconnected (h : nat)
| PeerDestroyed (h : nat)
| ConnectionClosed (h : nat) (k : string) (i : nat).

(** [Unmount] runs the pending clean-ups in the order the effects are
    declared. *)
Definition step (e : Event) (s : RoomState) : RoomState :=
  match e with
  | RunIdentityEffect camera => runIdentityEffect camera s
  | RunNameEffect => nameEffect s
  | RunSharingEffect => sharingEffect s
  | RunMediaEffect => runMediaEffect s
  | Unmount => runMediaCleanup (runIdentityCleanup s)
  | CameraSettled => cameraSettled s
  | Receive m => wsReceive m s
  | IncomingCall h caller name => incomingCall h caller name s
  | RemoteStream h k i tracks => remoteStream h k i tracks s
  | ClickShareScreen capture => shareScreen capture s
  | ClickCamera => handleCameraToggle s
  | ClickAudio => handleAudioToggle s
  | SetRoomId id => set_roomId id s
  | SetUserName name => set_userName name s
  | SetUserId id => set_userId id s
  | PeerDisconnected h => peerDisconnect h s
  | PeerDestroyed h => peerDestroy h s
  | ConnectionClosed h k i => closeConnection h k i s
  end.

Definition run (events : list Event) (s : RoomState) : RoomState :=
  foldl (fun acc e => step e acc) s events.

(** The states a session can be in. *)
Inductive Reachable : RoomState → Prop :=
| reach_init name uid : Reachable (initialRoom name uid)
| reach_step e s : Reachable s → Reachable (step e s).

(** *** The screen-share arbiter as seen from the signaling channel *)

Inductive ArbiterOp :=
| Start (byId : string)
| Stop.

(** One arbiter operation is one delivery to the listener that lines 142 and
    143 of the source install. *)
Definition arbiter (op : ArbiterOp) (s : RoomState) : RoomState :=
  match op with
  | Start byId => applyHandler on_user_started_sharing (UserStartedSharing byId) s
  | Stop => applyHandler on_user_stopped_sharing UserStoppedSharing s
  end.

Definition arbiterRun (ops : list ArbiterOp) (s : RoomState) : RoomState :=
  foldl (fun acc op => arbiter op acc) s ops.

End Room.

(** ** The chat provider *)

Module Chat.

(** Modelled from the spec: [ChatState] of the missing [reducers] module, an
    ordered message sequence and the open flag. *)
Record ChatState := { messages : list IMessage; isChatOpen : bool }.

(** Modelled from the spec: the action built by [addMessageAction] of the
    missing [reducers] module. *)
Inductive ChatAction :=
| addMessageAction (message : IMessage).

(** Modelled from the spec: [chatReducer] of the missing [reducers] module;
    the message sequence is append-only and ordered, a new message goes to its
    end. *)
Definition chatReducer (state : ChatState) (a : ChatAction) : ChatState :=
  match a with
  | addMessageAction message =>
      {| messages := messages state ++ [message]; isChatOpen := isChatOpen state |}
  end.

(** The [useReducer] cell of [ChatProvider] and what it published on [ws]. *)
Record ChatWorld := { chat : ChatState; chatEmitted : list WsEmit }.

Definition initialChat : ChatWorld :=
  {| chat := {| messages := []; isChatOpen := false |}; chatEmitted := [] |}.

Definition chatDispatch (a : ChatAction) (w : ChatWorld) : ChatWorld :=
  {| chat := chatReducer (chat w) a; chatEmitted := chatEmitted w |}.

Definition chatEmit (e : WsEmit) (w : ChatWorld) : ChatWorld :=
  {| chat := chat w; chatEmitted := chatEmitted w ++ [e] |}.

(** [sendMessage(message, roomId, author)]; [now] is the value of
    [new Date().getTime()] at the call. *)
Definition sendMessage (now : Z) (message roomId author : string) (w : ChatWorld) : ChatWorld :=
  let messageData := {| content := message; timestamp := now; author := author |} in
  chatEmit (EmitSendMessage roomId messageData)
    (chatDispatch (addMessageAction messageData) w).

(** [addMessage], the listener of add-message. *)
Definition addMessage (message : IMessage) (w : ChatWorld) : ChatWorld :=
  chatDispatch (addMessageAction message) w.

End Chat.

Import Room.

(** ** Invariants of the session *)

(** The event name each listener is registered under in the source. *)
Definition handlerEvent (h : WsHandler) : string :=
  match h with
  | on_room_created => "room-created"
  | on_get_users => "get-users"
  | on_user_disconnected => "user-disconnected"
  | on_user_started_sharing => "user-started-sharing"
  | on_user_stopped_sharing => "user-stopped-sharing"
  | on_name_changed => "name-changed"
  | on_user_joined _ _ _ => "user-joined"
  end.

(** The six subscriptions of the identity effect. *)
Definition identitySubscriptions : list (string * WsHandler) :=
  [("room-created", on_room_created); ("get-users", on_get_users);
   ("user-disconnected", on_user_disconnected);
   ("user-started-sharing", on_user_started_sharing);
   ("user-stopped-sharing", on_user_stopped_sharing);
   ("name-changed", on_name_changed)].

(** [keeps s s']: going from [s] to [s'] touched no subscription, no pending
    clean-up and not the peer handle, and did not lose the local stream. *)
Record keeps (s s' : RoomState) : Prop := {
  keeps_listeners : wsListeners s' = wsListeners s;
  keeps_identityCleanup : identityCleanup s' = identityCleanup s;
  keeps_mediaCleanup : mediaCleanup s' = mediaCleanup s;
  keeps_me : me s' = me s;
  keeps_stream : is_Some (stream s) → is_Some (stream s')
}.

(** [heapGrows s s']: every peer object of [s] is still there in [s'], with
    at least the [on("call")] listeners it had, in the same order. *)
Definition heapGrows (s s' : RoomState) : Prop :=
  ∀ h p, peerHeap s !! h = Some p →
    ∃ p', peerHeap s' !! h = Some p' ∧
          peerCallHandlers p `prefix_of` peerCallHandlers p'.

Record Inv (s : RoomState) : Prop := {
  (* every listener is registered under its own event name *)
  inv_paired : Forall (fun l => l.1 = handlerEvent l.2) (wsListeners s);
  (* while the identity effect is installed its subscriptions are *)
  inv_subscribed :
    is_Some (identityCleanup s) → ∀ l, l ∈ identitySubscriptions → l ∈ wsListeners s;
  (* a user-joined listener exists only with a peer handle and a stream *)
  inv_joined :
    (∃ l, l ∈ wsListeners s ∧ l.1 = "user-joined") → is_Some (me s) ∧ is_Some (stream s);
  (* so does the clean-up of the media effect *)
  inv_media : mediaCleanup s = true → is_Some (me s) ∧ is_Some (stream s);
  (* the peer handle is allocated *)
  inv_me : ∀ h, me s = Some h → is_Some (peerHeap s !! h)
}.

(** ** Concrete sessions *)

Module Scenario.

Definition camera : list MediaStreamTrack :=
  [{| kind := video; enabled := true |}; {| kind := audio; enabled := true |}].

Definition screen : list MediaStreamTrack :=
  [{| kind := video; enabled := true |}].

(** Ann, user id u1, has just mounted the provider. *)
Definition ann : RoomState := initialRoom "Ann" "u1".

(** Ann's session is up with her camera, and Bo (u2) has joined: Ann has one
    outbound connection. *)
Definition inCall : RoomState :=
  run [RunIdentityEffect (Resolves camera); CameraSettled; RunMediaEffect;
       Receive (UserJoined "u2" "Bo")] ann.

(** Ann pressed the share button and picked a screen. *)
Definition sharing : RoomState := step (ClickShareScreen (Resolves screen)) inCall.

(** Ann pressed the share button again, to stop, and the camera was granted. *)
Definition stopped : RoomState := step (ClickShareScreen (Resolves camera)) sharing.

(** Ann's session with her camera, nobody else in the room. *)
Definition alone : RoomState :=
  run [RunIdentityEffect (Resolves camera); CameraSettled; RunMediaEffect] ann.

(** Ann's session starts while the camera permission is denied. *)
Definition denied : RoomState :=
  run [RunIdentityEffect (Rejects "NotAllowedError"); CameraSettled] ann.

End Scenario.

(** ** Further invariants and notions *)

(** The handler the identity effect installs for a message of one of its six
    kinds (a user-joined message has its listener from the media effect). *)
Definition handle (m : WsMessage) (s : RoomState) : RoomState :=
  match m with
  | RoomCreated room => enterRoom room s
  | GetUsers participants => getUsers participants s
  | UserDisconnected peerId => removePeer peerId s
  | UserStartedSharing peerId => requestStart peerId s
  | UserStoppedSharing => requestStop s
  | NameChanged peerId name => nameChangedHandler peerId name s
  | UserJoined _ _ => s
  end.

Definition joinListeners (s : RoomState) : list (string * WsHandler) :=
  filter (fun l => l.1 = "user-joined") (wsListeners s).

Definition otherListeners (s : RoomState) : list (string * WsHandler) :=
  filter (fun l => l.1 ≠ "user-joined") (wsListeners s).

(** [stable s s']: going from [s] to [s'] kept the local stream cell, created
    and closed no peer object, changed no peer's id, and dropped no track. *)
Record stable (s s' : RoomState) : Prop := {
  stable_stream : stream s' = stream s;
  stable_tracks : (length (trackHeap s) ≤ length (trackHeap s'))%nat;
  stable_peers : length (peerHeap s') = length (peerHeap s);
  stable_peer : ∀ h p, peerHeap s !! h = Some p →
      ∃ p', peerHeap s' !! h = Some p' ∧
            peerDisconnected p' = peerDisconnected p ∧ peerObjId p' = peerObjId p
}.

Record SessionInv (s : RoomState) : Prop := {
  (* the listeners of the identity effect are there exactly once while it is
     installed, and not at all otherwise *)
  sinv_identity :
    otherListeners s = match identityCleanup s with
                       | Some _ => identitySubscriptions
                       | None => []
                       end;
  (* a user-joined listener belongs to the installed media effect and holds an
     allocated peer *)
  sinv_join : ∀ l, l ∈ joinListeners s →
    mediaCleanup s = true ∧
    ∃ h st name, l = ("user-joined", on_user_joined h st name) ∧
                 is_Some (peerHeap s !! h);
  sinv_join_one : (length (joinListeners s) ≤ 1)%nat;
  (* the pending clean-up of the identity effect holds an older peer *)
  sinv_captured : ∀ h0, identityCleanup s = Some (Some h0) → me s ≠ Some h0;
  (* every other peer has been disconnected *)
  sinv_closed : ∀ h p, peerHeap s !! h = Some p → peerDisconnected p = false →
    me s = Some h ∨ identityCleanup s = Some (Some h);
  (* the local stream lists distinct, allocated tracks *)
  sinv_stream : ∀ st, stream s = Some st →
    NoDup (trackRefs st) ∧ ∀ r, r ∈ trackRefs st → (r < length (trackHeap s))%nat
}.

(** The camera flag agrees with the enabled flag of every video track of the
    local stream. *)
Definition cameraInSync (s : RoomState) : Prop :=
  ∀ st r, stream s = Some st → r ∈ getVideoTracks (trackHeap s) st →
    enabled <$> trackHeap s !! r = Some (isCameraOn s).

(** What an inbound call looks like after the registered [on("call")]
    listeners have run on it, oldest first. *)
Definition answeredBy (handlers : list CallHandler) (c : MediaConnection) : MediaConnection :=
  foldl (fun acc ch => match ch with answerWith st => answerCall st acc end) c handlers.

Definition handlerStream (ch : CallHandler) : MediaStream :=
  match ch with answerWith st => st end.

(** A provider that has no user id yet and has done nothing. *)
Definition dormant (s : RoomState) : Prop :=
  userId s = "" ∧ me s = None ∧ stream s = None ∧ wsListeners s = [] ∧
  peerHeap s = [] ∧ pendingCamera s = [] ∧ identityCleanup s = None ∧
  mediaCleanup s = false ∧ screenSharingId s = "" ∧ peers s = ∅.

Definition setsUserId (e : Event) : bool :=
  match e with
  | SetUserId _ => true
  | _ => false
  end.

(** What the loop of [switchStream] does to one entry of [me.connections]
    when the new stream has video track [vt]: the senders of element 0 go
    through [replaceVideoTrack], the rest of the array is passed over. *)
Definition replaceOnFirst (heap : list MediaStreamTrack) (vt : nat)
    (e : string * list MediaConnection) : string * list MediaConnection :=
  (e.1, match e.2 with
        | [] => []
        | c0 :: more =>
            set_connSenders (replaceVideoTrack heap vt (connSenders c0)).1 c0 :: more
        end).

(** An entry of [me.connections] the loop of [switchStream] can work on:
    its array is not empty and element 0 has a peer connection, that is, the
    call was placed from here or has been answered. *)
Definition established (e : string * list MediaConnection) : Prop :=
  match e.2 with
  | [] => False
  | c0 :: _ => hasPeerConnection c0 = true
  end.

(** Ann alone in her session after Bo hung up: PeerJS took his connection
    out of [me.connections] and left the emptied array behind. *)
Definition afterHangUp : RoomState :=
  set_peerHeap [set_peerConnections [("u2", [])] (newPeer "u1")] Scenario.alone.

(** The connection PeerJS creates for [me.call(peerId, st, {metadata})]
    followed by [call.on("stream", ...)]. *)
Definition placedCall (peerId : string) (st : MediaStream) (localName : string)
  : MediaConnection :=
  {| connPeer := peerId; connMetadata := localName; connLocalStream := Some st;
     connSenders := sendersOf st; connStreamHandlers := [peerId] |}.

(** The connection PeerJS creates for an offer it received. *)
Definition offeredCall (caller name : string) : MediaConnection :=
  {| connPeer := caller; connMetadata := name; connLocalStream := None;
     connSenders := []; connStreamHandlers := [] |}.

(** A batch of [sendMessage] calls, in call order. *)
Definition sendAll (calls : list (Z * string * string * string)) (w : Chat.ChatWorld)
  : Chat.ChatWorld :=
  foldl (fun acc c => match c with
                      | (now, message, room, who) => Chat.sendMessage now message room who acc
                      end) w calls.

Definition sentRecord (c : Z * string * string * string) : IMessage :=
  match c with
  | (now, message, _, who) => {| content := message; timestamp := now; author := who |}
  end.

Definition sentEvent (c : Z * string * string * string) : WsEmit :=
  match c with
  | (_, _, room, _) => EmitSendMessage room (sentRecord c)
  end.

(** * Properties *)

(** ** Screen-share arbiter *)

Section Arbiter.

Lemma arbiterRun_snoc ops op s :
  arbiterRun (ops ++ [op]) s = arbiter op (arbiterRun ops s).
Proof. unfold arbiterRun. by rewrite foldl_app. Qed.

(** C1. [requestStart(byId)], the user-started-sharing listener, sets
    [screenSharingId] to [byId] whatever it was, and [requestStop()], the
    user-stopped-sharing listener, sets it to the empty string whatever it
    was, after every sequence of arbiter operations; start A, start B, stop
    ends empty, and start A alone from the initial state ends at A. *)
Theorem arbiter_last_writer_wins :
  (∀ ops s byId, screenSharingId (arbiterRun (ops ++ [Start byId]) s) = byId) ∧
  (∀ ops s, screenSharingId (arbiterRun (ops ++ [Stop]) s) = "") ∧
  (∀ s A B, screenSharingId (arbiterRun [Start A; Start B; Stop] s) = "") ∧
  (∀ name uid A, screenSharingId (arbiterRun [Start A] (initialRoom name uid)) = A).
Proof.
  repeat split; intros; rewrite ?arbiterRun_snoc; reflexivity.
Qed.

End Arbiter.

(** ** Local media toggles *)

Section Toggles.

Lemma set_trackHeap_id s : set_trackHeap (trackHeap s) s = s.
Proof. by destruct s. Qed.

Lemma flipEnabled_involutive t : flipEnabled (flipEnabled t) = t.
Proof. destruct t as [k b]. unfold flipEnabled; simpl. by rewrite negb_involutive. Qed.

Lemma flipAll_cons r refs heap :
  flipAll (r :: refs) heap = flipAll refs (alter flipEnabled r heap).
Proof. reflexivity. Qed.

Lemma flip_flip r (heap : list MediaStreamTrack) :
  alter flipEnabled r (alter flipEnabled r heap) = heap.
Proof.
  rewrite list_alter_alter_eq. apply list_alter_id.
  intros t. apply flipEnabled_involutive.
Qed.

Lemma flip_comm r r' (heap : list MediaStreamTrack) :
  alter flipEnabled r (alter flipEnabled r' heap)
  = alter flipEnabled r' (alter flipEnabled r heap).
Proof.
  destruct (decide (r = r')) as [->|Hne]; [done|].
  by apply list_alter_alter_ne.
Qed.

Lemma flipAll_flip refs r heap :
  flipAll refs (alter flipEnabled r heap) = alter flipEnabled r (flipAll refs heap).
Proof.
  revert heap. induction refs as [|r' refs IH]; intros heap; [done|].
  rewrite !flipAll_cons, <- IH. f_equal. apply flip_comm.
Qed.

(** Flipping the same tracks twice gives the heap back. *)
Lemma flipAll_involutive refs heap : flipAll refs (flipAll refs heap) = heap.
Proof.
  revert heap. induction refs as [|r refs IH]; intros heap; [done|].
  rewrite !flipAll_cons, flipAll_flip, IH. apply flip_flip.
Qed.

(** Flipping [enabled] changes no track's kind. *)
Lemma hasKind_flip k r r' heap :
  hasKind k (alter flipEnabled r' heap) r = hasKind k heap r.
Proof.
  unfold hasKind. destruct (decide (r' = r)) as [->|Hne].
  - rewrite list_lookup_alter_eq. by destruct (heap !! r).
  - by rewrite list_lookup_alter_ne.
Qed.

Lemma hasKind_flipAll k r refs heap :
  hasKind k (flipAll refs heap) r = hasKind k heap r.
Proof.
  revert heap. induction refs as [|r' refs IH]; intros heap; [done|].
  by rewrite flipAll_cons, IH, hasKind_flip.
Qed.

Lemma filter_hasKind_flipAll k refs heap (l : list nat) :
  filter (fun r => hasKind k (flipAll refs heap) r = true) l
  = filter (fun r => hasKind k heap r = true) l.
Proof.
  apply list_filter_iff. intros r. by rewrite hasKind_flipAll.
Qed.

(** The [forEach] of [handleCameraToggle], in closed form: with at least one
    video track the heap is flipped at those tracks and the flag is set to the
    negation of the value the handler closed over. *)
Lemma camera_forEach flag tracks s :
  foldl (fun acc track =>
           set_isCameraOn flag
             (set_trackHeap (alter flipEnabled track (trackHeap acc)) acc)) s tracks
  = match tracks with
    | [] => s
    | _ :: _ => set_isCameraOn flag (set_trackHeap (flipAll tracks (trackHeap s)) s)
    end.
Proof.
  revert s. induction tracks as [|r tracks IH]; intros s; [done|].
  simpl foldl. rewrite IH. destruct tracks as [|r' tracks]; [done|].
  by destruct s.
Qed.

Lemma audio_forEach flag tracks s :
  foldl (fun acc track =>
           set_isAudioOn flag
             (set_trackHeap (alter flipEnabled track (trackHeap acc)) acc)) s tracks
  = match tracks with
    | [] => s
    | _ :: _ => set_isAudioOn flag (set_trackHeap (flipAll tracks (trackHeap s)) s)
    end.
Proof.
  revert s. induction tracks as [|r tracks IH]; intros s; [done|].
  simpl foldl. rewrite IH. destruct tracks as [|r' tracks]; [done|].
  by destruct s.
Qed.

Lemma handleCameraToggle_closed s :
  handleCameraToggle s
  = match stream s with
    | Some st =>
        match getVideoTracks (trackHeap s) st with
        | [] => s
        | tracks => set_isCameraOn (negb (isCameraOn s))
                      (set_trackHeap (flipAll tracks (trackHeap s)) s)
        end
    | None => s
    end.
Proof.
  unfold handleCameraToggle, handleCameraToggleOf.
  destruct (stream s) as [st|]; [|done]. rewrite camera_forEach.
  by destruct (getVideoTracks (trackHeap s) st).
Qed.

Lemma handleAudioToggle_closed s :
  handleAudioToggle s
  = match stream s with
    | Some st =>
        match getAudioTracks (trackHeap s) st with
        | [] => s
        | tracks => set_isAudioOn (negb (isAudioOn s))
                      (set_trackHeap (flipAll tracks (trackHeap s)) s)
        end
    | None => s
    end.
Proof.
  unfold handleAudioToggle, handleAudioToggleOf.
  destruct (stream s) as [st|]; [|done]. rewrite audio_forEach.
  by destruct (getAudioTracks (trackHeap s) st).
Qed.

Lemma handleCameraToggleOf_closed render s :
  handleCameraToggleOf render s
  = match stream render with
    | Some st =>
        match getVideoTracks (trackHeap s) st with
        | [] => s
        | tracks => set_isCameraOn (negb (isCameraOn render))
                      (set_trackHeap (flipAll tracks (trackHeap s)) s)
        end
    | None => s
    end.
Proof.
  unfold handleCameraToggleOf.
  destruct (stream render) as [st|]; [|done]. rewrite camera_forEach.
  by destruct (getVideoTracks (trackHeap s) st).
Qed.

(** Two calls of one and the same handler (the closure of one render), run
    one after the other, flip every video track back. *)
Lemma handleCameraToggleOf_twice_tracks render s :
  trackHeap (handleCameraToggleOf render (handleCameraToggleOf render s)) = trackHeap s.
Proof.
  rewrite (handleCameraToggleOf_closed render s).
  destruct (stream render) as [st|] eqn:Hst.
  2: { rewrite handleCameraToggleOf_closed. by rewrite Hst. }
  destruct (getVideoTracks (trackHeap s) st) as [|r tracks] eqn:Htr.
  { rewrite handleCameraToggleOf_closed. by rewrite Hst, Htr. }
  rewrite handleCameraToggleOf_closed.
  cbn [stream trackHeap isCameraOn set_isCameraOn set_trackHeap].
  rewrite Hst. unfold getVideoTracks in *.
  rewrite filter_hasKind_flipAll, Htr.
  cbn [trackHeap set_isCameraOn set_trackHeap]. apply flipAll_involutive.
Qed.

(** Two successive camera toggles, each one the handler of the current
    render, restore the whole state. *)
Lemma handleCameraToggle_twice s :
  handleCameraToggle (handleCameraToggle s) = s.
Proof.
  rewrite (handleCameraToggle_closed s).
  destruct (stream s) as [st|] eqn:Hst.
  2: { rewrite handleCameraToggle_closed. by rewrite Hst. }
  destruct (getVideoTracks (trackHeap s) st) as [|r tracks] eqn:Htr.
  { rewrite handleCameraToggle_closed. by rewrite Hst, Htr. }
  rewrite handleCameraToggle_closed.
  cbn [stream trackHeap isCameraOn set_isCameraOn set_trackHeap].
  rewrite Hst. unfold getVideoTracks in *.
  rewrite filter_hasKind_flipAll, Htr.
  rewrite flipAll_involutive, negb_involutive.
  by destruct s.
Qed.

(** C7 as stated fails: [handleCameraToggle(); handleCameraToggle()], two
    calls of the handler of one render with no re-render in between, flip the
    tracks back, but both write the negation of the [isCameraOn] that render
    saw, so the flag ends negated.  Here Ann, alone in her session with her
    camera on, ends with [isCameraOn = false] and the video track enabled. *)
Lemma toggle_twice_in_one_render_negates_flag :
  let s := Scenario.alone in
  let s' := handleCameraToggleOf s (handleCameraToggleOf s s) in
  trackHeap s' = trackHeap s ∧ isCameraOn s' ≠ isCameraOn s.
Proof. vm_compute. split; [reflexivity|discriminate]. Qed.

(** C7, as the code has it. Two camera toggles in succession restore the
    enabled flag of every track of the local stream, whether the second call
    is the same handler again (no re-render in between) or the handler of the
    next render; [isCameraOn], and with it the whole state, is restored when
    a re-render separates the two calls, each call being the handler of the
    current render. *)
Theorem camera_toggle_twice_restores :
  (∀ render s,
     trackHeap (handleCameraToggleOf render (handleCameraToggleOf render s)) = trackHeap s) ∧
  (∀ s, trackHeap (handleCameraToggle (handleCameraToggle s)) = trackHeap s ∧
        isCameraOn (handleCameraToggle (handleCameraToggle s)) = isCameraOn s ∧
        handleCameraToggle (handleCameraToggle s) = s).
Proof.
  split; [apply handleCameraToggleOf_twice_tracks|].
  intros s. by rewrite handleCameraToggle_twice.
Qed.

(** C6, as the code has it. Without a local stream a toggle changes nothing
    at all: no track and neither flag. *)
Theorem toggle_without_stream_is_noop s :
  stream s = None →
  handleCameraToggle s = s ∧ handleAudioToggle s = s.
Proof.
  intros Hst. rewrite handleCameraToggle_closed, handleAudioToggle_closed.
  by rewrite Hst.
Qed.

Lemma toggle_without_stream_is_noop_witness :
  let s := initialRoom "Ann" "u1" in
  stream s = None ∧ handleCameraToggle s = s ∧ handleAudioToggle s = s.
Proof.
  split; [reflexivity|]. apply (toggle_without_stream_is_noop (initialRoom "Ann" "u1")).
  reflexivity.
Defined.

(** C6 as stated fails: on the initial state (no local stream) the camera
    flag does not flip to its negation, and neither does the audio flag. *)
Lemma toggle_without_stream_keeps_flag :
  let s := initialRoom "Ann" "u1" in
  stream s = None ∧
  isCameraOn (handleCameraToggle s) ≠ negb (isCameraOn s) ∧
  isAudioOn (handleAudioToggle s) ≠ negb (isAudioOn s).
Proof. repeat split; discriminate. Qed.

End Toggles.

(** ** Chat *)

Section ChatFacts.

(** C9. [sendMessage(content, roomId, author)] appends the record
    [{content, author, timestamp: now}] at the end of the message sequence and
    emits one send-message event that carries the room id and that same
    record; the open flag and earlier messages and emissions stay. *)
Theorem sendMessage_appends_and_emits now message room who (w : Chat.ChatWorld) :
  let messageData := {| content := message; timestamp := now; author := who |} in
  let w' := Chat.sendMessage now message room who w in
  Chat.messages (Chat.chat w') = Chat.messages (Chat.chat w) ++ [messageData] ∧
  Chat.isChatOpen (Chat.chat w') = Chat.isChatOpen (Chat.chat w) ∧
  Chat.chatEmitted w' = Chat.chatEmitted w ++ [EmitSendMessage room messageData].
Proof. by repeat split. Qed.

(** End-to-end scenario 4 on a fresh chat. *)
Example sendMessage_scenario now :
  let w := Chat.sendMessage now "hi" "room1" "Ann" Chat.initialChat in
  Chat.messages (Chat.chat w) = [{| content := "hi"; timestamp := now; author := "Ann" |}] ∧
  Chat.chatEmitted w =
    [EmitSendMessage "room1" {| content := "hi"; timestamp := now; author := "Ann" |}].
Proof. by split. Qed.

End ChatFacts.

(** ** Frame lemmas: what the handlers leave alone *)

Section Frames.

#[global] Instance keeps_refl : Reflexive keeps.
Proof. intros s. by split. Qed.

#[global] Instance keeps_trans : Transitive keeps.
Proof.
  intros a b c [] []. split; try congruence. auto.
Qed.

#[global] Instance heapGrows_refl : Reflexive heapGrows.
Proof. intros s h p Hp. exists p. by split. Qed.

#[global] Instance heapGrows_trans : Transitive heapGrows.
Proof.
  intros a b c Hab Hbc h p Hp.
  destruct (Hab h p Hp) as (p' & Hp' & Hpre).
  destruct (Hbc h p' Hp') as (p'' & Hp'' & Hpre').
  exists p''. split; [done|]. by etrans.
Qed.

Lemma foldl_keeps {A} (f : RoomState → A → RoomState) (l : list A) s :
  (∀ acc x, keeps acc (f acc x)) → keeps s (foldl f s l).
Proof.
  intros Hf. revert s. induction l as [|x l IH]; intros s; simpl; [done|].
  etrans; [apply (Hf s x)|apply IH].
Qed.

Lemma foldl_heapGrows {A} (f : RoomState → A → RoomState) (l : list A) s :
  (∀ acc x, heapGrows acc (f acc x)) → heapGrows s (foldl f s l).
Proof.
  intros Hf. revert s. induction l as [|x l IH]; intros s; simpl; [done|].
  etrans; [apply (Hf s x)|apply IH].
Qed.

(** Heap updates that keep the [on("call")] listeners of every peer. *)
Lemma heapGrows_same_heap s s' : peerHeap s' = peerHeap s → heapGrows s s'.
Proof. intros Heq h p Hp. exists p. by rewrite Heq. Qed.

Lemma heapGrows_alter s s' f h :
  (∀ p, peerCallHandlers p `prefix_of` peerCallHandlers (f p)) →
  peerHeap s' = alter f h (peerHeap s) → heapGrows s s'.
Proof.
  intros Hf Heq i p Hp. rewrite Heq.
  destruct (decide (h = i)) as [->|Hne].
  - exists (f p). by rewrite list_lookup_alter_eq, Hp.
  - exists p. by rewrite list_lookup_alter_ne.
Qed.

Lemma heapGrows_insert s s' h p p' :
  peerHeap s !! h = Some p →
  peerCallHandlers p `prefix_of` peerCallHandlers p' →
  peerHeap s' = <[h := p']> (peerHeap s) → heapGrows s s'.
Proof.
  intros Hp Hpre Heq i q Hq. rewrite Heq.
  destruct (decide (h = i)) as [->|Hne].
  - exists p'. rewrite list_lookup_insert_eq by (by eapply lookup_lt_Some).
    split; [done|]. congruence.
  - exists q. by rewrite list_lookup_insert_ne.
Qed.

Lemma heapGrows_alloc s s' p :
  peerHeap s' = peerHeap s ++ [p] → heapGrows s s'.
Proof.
  intros Heq i q Hq. rewrite Heq. exists q. split; [|done].
  by apply lookup_app_l_Some.
Qed.

Lemma disconnectPeer_handlers p :
  peerCallHandlers (disconnectPeer p) = peerCallHandlers p.
Proof. unfold disconnectPeer. by destruct (peerDisconnected p). Qed.

(** *** Signaling listeners *)

Lemma applyHandler_keeps h m s : keeps s (applyHandler h m s).
Proof.
  destruct h, m; simpl; try reflexivity;
    unfold enterRoom, getUsers, removePeer, requestStart, requestStop,
      nameChangedHandler, userJoined, outboundCall, dispatch, escape, consoleWrite;
    repeat case_match; simplify_eq; by split.
Qed.

Lemma applyHandler_heapGrows h m s : heapGrows s (applyHandler h m s).
Proof.
  destruct h, m; simpl; try reflexivity;
    unfold enterRoom, getUsers, removePeer, requestStart, requestStop,
      nameChangedHandler, userJoined, outboundCall, dispatch, escape, consoleWrite;
    repeat case_match; simplify_eq; try (by apply heapGrows_same_heap).
  eapply heapGrows_insert; [eassumption| |reflexivity]. done.
Qed.

Lemma wsReceive_keeps m s : keeps s (wsReceive m s).
Proof.
  unfold wsReceive, deliver. apply foldl_keeps. intros acc l.
  case_bool_decide; [apply applyHandler_keeps|reflexivity].
Qed.

Lemma wsReceive_heapGrows m s : heapGrows s (wsReceive m s).
Proof.
  unfold wsReceive, deliver. apply foldl_heapGrows. intros acc l.
  case_bool_decide; [apply applyHandler_heapGrows|reflexivity].
Qed.

(** *** Calls and remote streams *)

Lemma onCall_keeps h caller name st s : keeps s (onCall h caller name st s).
Proof. unfold onCall, dispatch. by split. Qed.

Lemma onCall_heapGrows h caller name st s : heapGrows s (onCall h caller name st s).
Proof.
  unfold onCall, dispatch.
  eapply heapGrows_alter; [|reflexivity]. by intros p.
Qed.

Lemma incomingCall_keeps h caller name s : keeps s (incomingCall h caller name s).
Proof.
  unfold incomingCall. repeat case_match; try reflexivity.
  etrans; [|apply foldl_keeps; intros acc []; apply onCall_keeps]. by split.
Qed.

Lemma incomingCall_heapGrows h caller name s : heapGrows s (incomingCall h caller name s).
Proof.
  unfold incomingCall. repeat case_match; try reflexivity.
  etrans; [|apply foldl_heapGrows; intros acc []; apply onCall_heapGrows].
  eapply heapGrows_insert; [eassumption| |reflexivity]. done.
Qed.

Lemma remoteStream_keeps h k i tracks s : keeps s (remoteStream h k i tracks s).
Proof.
  unfold remoteStream. repeat case_match; try reflexivity. simplify_eq.
  etrans; [|apply foldl_keeps; intros acc id; unfold dispatch; by split]. by split.
Qed.

Lemma remoteStream_heapGrows h k i tracks s : heapGrows s (remoteStream h k i tracks s).
Proof.
  unfold remoteStream. repeat case_match; try reflexivity. simplify_eq.
  etrans; [|apply foldl_heapGrows; intros acc id; by apply heapGrows_same_heap].
  by apply heapGrows_same_heap.
Qed.

(** *** Screen sharing *)

Lemma switchStream_keeps st s : keeps s (switchStream st s).1.
Proof.
  unfold switchStream. repeat case_match; simpl; try reflexivity. by split.
Qed.

Lemma switchStream_heapGrows st s : heapGrows s (switchStream st s).1.
Proof.
  unfold switchStream. repeat case_match; simpl; try reflexivity.
  eapply heapGrows_insert; [eassumption| |reflexivity]. done.
Qed.

Lemma escapeIf_keeps thrown s : keeps s (escapeIf thrown s).
Proof. destruct thrown; by split. Qed.

Lemma shareScreen_keeps capture s : keeps s (shareScreen capture s).
Proof.
  unfold shareScreen, allocStream.
  repeat case_match; simplify_eq; try (by split);
    match goal with
    | H : switchStream ?st ?s0 = (?s1, _) |- keeps ?s ?t =>
        transitivity s0; [by split|];
        transitivity s1;
          [pose proof (switchStream_keeps st s0) as Hk; by rewrite H in Hk|];
        first [by split | apply escapeIf_keeps]
    end.
Qed.

Lemma shareScreen_heapGrows capture s : heapGrows s (shareScreen capture s).
Proof.
  unfold shareScreen, allocStream.
  repeat case_match; simplify_eq; try (by apply heapGrows_same_heap);
    match goal with
    | H : switchStream ?st ?s0 = (?s1, _) |- heapGrows ?s ?t =>
        transitivity s0; [by apply heapGrows_same_heap|];
        transitivity s1;
          [pose proof (switchStream_heapGrows st s0) as Hk; by rewrite H in Hk|];
        apply heapGrows_same_heap; unfold escapeIf; by repeat case_match
    end.
Qed.

(** *** Toggles, the camera promise, the emitting effects *)

Lemma handleCameraToggle_keeps s : keeps s (handleCameraToggle s).
Proof. rewrite handleCameraToggle_closed. repeat case_match; by split. Qed.

Lemma handleAudioToggle_keeps s : keeps s (handleAudioToggle s).
Proof. rewrite handleAudioToggle_closed. repeat case_match; by split. Qed.

Lemma handleCameraToggle_heap s : peerHeap (handleCameraToggle s) = peerHeap s.
Proof. rewrite handleCameraToggle_closed. by repeat case_match. Qed.

Lemma handleAudioToggle_heap s : peerHeap (handleAudioToggle s) = peerHeap s.
Proof. rewrite handleAudioToggle_closed. by repeat case_match. Qed.

Lemma cameraSettled_keeps s : keeps s (cameraSettled s).
Proof.
  unfold cameraSettled, allocStream, escape.
  repeat case_match; simplify_eq; split; simpl; eauto.
Qed.

Lemma cameraSettled_heap s : peerHeap (cameraSettled s) = peerHeap s.
Proof.
  unfold cameraSettled, allocStream, escape. by repeat case_match; simplify_eq.
Qed.

Lemma sharingEffect_keeps s : keeps s (sharingEffect s).
Proof. unfold sharingEffect. case_match; by split. Qed.

Lemma sharingEffect_heap s : peerHeap (sharingEffect s) = peerHeap s.
Proof. unfold sharingEffect. by case_match. Qed.

(** *** Subscribing and unsubscribing *)

Lemma elem_of_wsOff name s l :
  l ∈ wsListeners (wsOff name s) ↔ l.1 ≠ name ∧ l ∈ wsListeners s.
Proof. unfold wsOff. simpl. by rewrite list_elem_of_filter. Qed.

Lemma elem_of_wsOn name h s l :
  l ∈ wsListeners (wsOn name h s) ↔ l ∈ wsListeners s ∨ l = (name, h).
Proof. unfold wsOn. simpl. rewrite elem_of_app, list_elem_of_singleton. tauto. Qed.

Lemma subscription_name l :
  l ∈ identitySubscriptions → l.1 = handlerEvent l.2 ∧ l.1 ≠ "user-joined".
Proof.
  unfold identitySubscriptions. rewrite !elem_of_cons, elem_of_nil.
  intros H. by repeat destruct H as [->|H].
Qed.

(** *** The invariant *)

(** A step that only drops listeners, keeps the peer handle and the stream,
    and has its clean-up flags justified, preserves the invariant. *)
Lemma Inv_shrink s s' :
  Inv s →
  (∀ l, l ∈ wsListeners s' → l ∈ wsListeners s) →
  (is_Some (identityCleanup s') →
     ∀ l, l ∈ identitySubscriptions → l ∈ wsListeners s') →
  (mediaCleanup s' = true → mediaCleanup s = true) →
  me s' = me s →
  (is_Some (stream s) → is_Some (stream s')) →
  heapGrows s s' →
  Inv s'.
Proof.
  intros [Hpair Hsub Hjoin Hmedia Hme] Hls Hid Hmc Hme' Hst Hheap. split.
  - rewrite Forall_forall in *. auto.
  - done.
  - intros (l & Hl & Hname). rewrite Hme'.
    destruct Hjoin as [? ?]; [by eauto|]. auto.
  - intros Hm. rewrite Hme'. destruct (Hmedia (Hmc Hm)). auto.
  - intros h Hh. rewrite Hme' in Hh. destruct (Hme h Hh) as [p Hp].
    destruct (Hheap h p Hp) as (p' & Hp' & _). by exists p'.
Qed.

Lemma Inv_keeps s s' : Inv s → keeps s s' → heapGrows s s' → Inv s'.
Proof.
  intros HI [Hl Hic Hmc Hme Hst] Hheap.
  apply (Inv_shrink s s' HI); try done.
  - intros l. by rewrite Hl.
  - rewrite Hic, Hl. by apply inv_subscribed.
  - by rewrite Hmc.
Qed.

Lemma Inv_init name uid : Inv (initialRoom name uid).
Proof.
  split; simpl.
  - constructor.
  - by intros [? ?].
  - intros (l & Hl & _). by apply elem_of_nil in Hl.
  - done.
  - done.
Qed.

Lemma Inv_runMediaCleanup s : Inv s → Inv (runMediaCleanup s).
Proof.
  intros HI. unfold runMediaCleanup, mediaCleanupBody.
  destruct (mediaCleanup s) eqn:Hmc; [|done].
  apply (Inv_shrink s _ HI); simpl; try done.
  - intros l [_ Hl]%list_elem_of_filter. done.
  - intros Hic l Hl. apply list_elem_of_filter. split.
    + by apply subscription_name.
    + by apply (inv_subscribed s).
  - by apply heapGrows_same_heap.
Qed.

Lemma Inv_no_mediaCleanup s : Inv s → Inv (set_mediaCleanup false s).
Proof.
  intros HI. apply (Inv_shrink s _ HI); simpl; try done.
  - by apply (inv_subscribed s).
  - by apply heapGrows_same_heap.
Qed.

Lemma Inv_mediaEffect s : Inv s → Inv (mediaEffect s).
Proof.
  intros HI. unfold mediaEffect.
  destruct (me s) as [h|] eqn:Hme, (stream s) as [st|] eqn:Hst;
    try (by apply Inv_no_mediaCleanup).
  destruct HI as [Hpair Hsub Hjoin Hmedia Hvalid].
  split; simpl.
  - apply Forall_app. split; [done|]. by repeat constructor.
  - intros Hic l Hl. apply elem_of_app. left. by apply Hsub.
  - intros _. rewrite Hme, Hst. by split.
  - intros _. rewrite Hme, Hst. by split.
  - intros h' Hh'. rewrite Hme in Hh'. simplify_eq.
    destruct (Hvalid h' Hme) as [p Hp].
    exists (addCallHandler (answerWith st) p).
    by rewrite list_lookup_alter_eq, Hp.
Qed.

Lemma Inv_runIdentityCleanup s : Inv s → Inv (runIdentityCleanup s).
Proof.
  intros HI. unfold runIdentityCleanup, identityCleanupBody.
  destruct (identityCleanup s) as [captured|] eqn:Hic; [|done].
  apply (Inv_shrink s _ HI).
  - destruct captured; simpl; intros l Hl;
      repeat (apply list_elem_of_filter in Hl; destruct Hl as [_ Hl]); done.
  - destruct captured; simpl; by intros [? ?].
  - by destruct captured.
  - by destruct captured.
  - by destruct captured.
  - destruct captured as [h|]; [|by apply heapGrows_same_heap].
    eapply (heapGrows_alter _ _ disconnectPeer h); [|reflexivity].
    intros p. by rewrite disconnectPeer_handlers.
Qed.

Lemma Inv_identityEffect camera s : Inv s → Inv (identityEffect camera s).
Proof.
  intros HI. unfold identityEffect.
  destruct (truthy (userId s)) eqn:Hid.
  2: { apply (Inv_shrink s _ HI); simpl; try done.
       by apply heapGrows_same_heap. }
  destruct HI as [Hpair Hsub Hjoin Hmedia Hvalid].
  assert (∀ x, stream (requestCamera camera x) = stream x) as Hrs
    by (intros x; by destruct camera).
  assert (∀ x, me (requestCamera camera x) = me x) as Hrm
    by (intros x; by destruct camera).
  assert (∀ x, wsListeners (requestCamera camera x) = wsListeners x) as Hrl
    by (intros x; by destruct camera).
  assert (∀ x, mediaCleanup (requestCamera camera x) = mediaCleanup x) as Hrc
    by (intros x; by destruct camera).
  assert (∀ x, peerHeap (requestCamera camera x) = peerHeap x) as Hrh
    by (intros x; by destruct camera).
  split; simpl; rewrite ?Hrl, ?Hrs, ?Hrm, ?Hrc, ?Hrh; simpl.
  - rewrite !Forall_app. repeat split; try done; by repeat constructor.
  - intros _ l Hl. unfold identitySubscriptions in Hl.
    rewrite !elem_of_app, !list_elem_of_singleton.
    rewrite !elem_of_cons, elem_of_nil in Hl. tauto.
  - intros (l & Hl & Hname). split; [done|].
    rewrite !elem_of_app, !list_elem_of_singleton in Hl.
    destruct Hl as [[[[[[Hl| ->]| ->]| ->]| ->]| ->]| ->]; try discriminate.
    apply Hjoin. eauto.
  - intros Hm. split; [done|]. by apply Hmedia.
  - intros h Hh. simplify_eq. exists (newPeer (userId s)).
    by rewrite lookup_app_r, Nat.sub_diag.
Qed.

(** *** What PeerJS does on its own *)

Lemma destroyPeer_handlers p : peerCallHandlers (destroyPeer p) = peerCallHandlers p.
Proof. unfold destroyPeer. simpl. apply disconnectPeer_handlers. Qed.

Lemma peerDisconnect_keeps h s : keeps s (peerDisconnect h s).
Proof. by split. Qed.

Lemma peerDestroy_keeps h s : keeps s (peerDestroy h s).
Proof. by split. Qed.

Lemma closeConnection_keeps h k i s : keeps s (closeConnection h k i s).
Proof. by split. Qed.

Lemma peerDisconnect_heapGrows h s : heapGrows s (peerDisconnect h s).
Proof.
  eapply (heapGrows_alter _ _ disconnectPeer h); [|reflexivity].
  intros p. by rewrite disconnectPeer_handlers.
Qed.

Lemma peerDestroy_heapGrows h s : heapGrows s (peerDestroy h s).
Proof.
  eapply (heapGrows_alter _ _ destroyPeer h); [|reflexivity].
  intros p. by rewrite destroyPeer_handlers.
Qed.

Lemma closeConnection_heapGrows h k i s : heapGrows s (closeConnection h k i s).
Proof. eapply heapGrows_alter; [|reflexivity]. by intros p. Qed.

(** Every event preserves the invariant. *)
Lemma Inv_step e s : Inv s → Inv (step e s).
Proof.
  intros HI. destruct e; simpl.
  - by apply Inv_identityEffect, Inv_runIdentityCleanup.
  - apply (Inv_keeps s); [done|by split|by apply heapGrows_same_heap].
  - apply (Inv_keeps s); [done|apply sharingEffect_keeps|].
    apply heapGrows_same_heap, sharingEffect_heap.
  - by apply Inv_mediaEffect, Inv_runMediaCleanup.
  - by apply Inv_runMediaCleanup, Inv_runIdentityCleanup.
  - apply (Inv_keeps s); [done|apply cameraSettled_keeps|].
    apply heapGrows_same_heap, cameraSettled_heap.
  - apply (Inv_keeps s); [done|apply wsReceive_keeps|apply wsReceive_heapGrows].
  - apply (Inv_keeps s); [done|apply incomingCall_keeps|apply incomingCall_heapGrows].
  - apply (Inv_keeps s); [done|apply remoteStream_keeps|apply remoteStream_heapGrows].
  - apply (Inv_keeps s); [done|apply shareScreen_keeps|apply shareScreen_heapGrows].
  - apply (Inv_keeps s); [done|apply handleCameraToggle_keeps|].
    apply heapGrows_same_heap, handleCameraToggle_heap.
  - apply (Inv_keeps s); [done|apply handleAudioToggle_keeps|].
    apply heapGrows_same_heap, handleAudioToggle_heap.
  - apply (Inv_keeps s); [done|by split|by apply heapGrows_same_heap].
  - apply (Inv_keeps s); [done|by split|by apply heapGrows_same_heap].
  - apply (Inv_keeps s); [done|by split|by apply heapGrows_same_heap].
  - apply (Inv_keeps s); [done|apply peerDisconnect_keeps|apply peerDisconnect_heapGrows].
  - apply (Inv_keeps s); [done|apply peerDestroy_keeps|apply peerDestroy_heapGrows].
  - apply (Inv_keeps s); [done|apply closeConnection_keeps|apply closeConnection_heapGrows].
Qed.

Lemma Reachable_Inv s : Reachable s → Inv s.
Proof.
  induction 1 as [name uid|e s _ IH]; [apply Inv_init|by apply Inv_step].
Qed.

End Frames.

(** ** Delivery of signaling messages *)

Section Delivery.

Lemma deliver_unheard m ls acc :
  (∀ l, l ∈ ls → l.1 ≠ eventName m) → deliver m ls acc = acc.
Proof.
  revert acc. induction ls as [|l ls IH]; intros acc Hno; [done|].
  unfold deliver. simpl.
  rewrite bool_decide_eq_false_2 by (apply Hno; apply list_elem_of_here).
  apply IH. intros l' Hl'. apply Hno. by apply list_elem_of_further.
Qed.

Lemma deliver_again m (f : RoomState → RoomState) ls acc :
  (∀ x, f (f x) = f x) →
  (∀ l, l ∈ ls → l.1 = eventName m → ∀ x, applyHandler l.2 m x = f x) →
  deliver m ls (f acc) = f acc.
Proof.
  intros Hidem. revert acc. induction ls as [|l ls IH]; intros acc Hall; [done|].
  unfold deliver. simpl. case_bool_decide as Hn.
  - rewrite (Hall l) by (done || apply list_elem_of_here). rewrite Hidem.
    apply IH. intros l' Hl'. apply Hall. by apply list_elem_of_further.
  - apply IH. intros l' Hl'. apply Hall. by apply list_elem_of_further.
Qed.

Lemma deliver_idempotent m (f : RoomState → RoomState) ls acc :
  (∀ x, f (f x) = f x) →
  (∀ l, l ∈ ls → l.1 = eventName m → ∀ x, applyHandler l.2 m x = f x) →
  (∃ l, l ∈ ls ∧ l.1 = eventName m) →
  deliver m ls acc = f acc.
Proof.
  intros Hidem. revert acc.
  induction ls as [|l ls IH]; intros acc Hall (l0 & Hl0 & Hn0).
  { by apply elem_of_nil in Hl0. }
  unfold deliver. simpl. case_bool_decide as Hn.
  - rewrite (Hall l) by (done || apply list_elem_of_here).
    apply deliver_again; [done|].
    intros l' Hl'. apply Hall. by apply list_elem_of_further.
  - apply IH.
    + intros l' Hl'. apply Hall. by apply list_elem_of_further.
    + apply elem_of_cons in Hl0 as [->|Hl0]; [done|]. eauto.
Qed.

(** A message nobody listens to changes nothing. *)
Lemma wsReceive_unheard m s :
  (∀ l, l ∈ wsListeners s → l.1 ≠ eventName m) → wsReceive m s = s.
Proof. apply deliver_unheard. Qed.

(** When every listener of the message's event does the same idempotent
    thing, one or many of them amount to doing it once. *)
Lemma wsReceive_idempotent m (f : RoomState → RoomState) s :
  (∀ x, f (f x) = f x) →
  (∀ l, l ∈ wsListeners s → l.1 = eventName m → ∀ x, applyHandler l.2 m x = f x) →
  (∃ l, l ∈ wsListeners s ∧ l.1 = eventName m) →
  wsReceive m s = f s.
Proof. apply deliver_idempotent. Qed.

Lemma requestStart_idempotent byId x :
  requestStart byId (requestStart byId x) = requestStart byId x.
Proof. reflexivity. Qed.

Lemma removePeer_idempotent peerId x :
  removePeer peerId (removePeer peerId x) = removePeer peerId x.
Proof.
  unfold removePeer, dispatch, set_peers; simpl. by rewrite delete_delete_eq.
Qed.

(** In a session whose identity effect is installed, a user-started-sharing
    message runs [requestStart] and a user-disconnected message [removePeer]. *)
Lemma receive_started_sharing s byId :
  Reachable s → is_Some (identityCleanup s) →
  wsReceive (UserStartedSharing byId) s = requestStart byId s.
Proof.
  intros [Hpair Hsub _ _ _]%Reachable_Inv Hic.
  apply wsReceive_idempotent.
  - apply requestStart_idempotent.
  - intros [n h] Hl Hn x. rewrite Forall_forall in Hpair.
    specialize (Hpair _ Hl). simpl in *. subst n.
    by destruct h.
  - exists ("user-started-sharing", on_user_started_sharing). split; [|done].
    apply Hsub; [done|]. unfold identitySubscriptions.
    rewrite !elem_of_cons. tauto.
Qed.

Lemma receive_user_disconnected s peerId :
  Reachable s → is_Some (identityCleanup s) →
  wsReceive (UserDisconnected peerId) s = removePeer peerId s.
Proof.
  intros [Hpair Hsub _ _ _]%Reachable_Inv Hic.
  apply wsReceive_idempotent.
  - apply removePeer_idempotent.
  - intros [n h] Hl Hn x. rewrite Forall_forall in Hpair.
    specialize (Hpair _ Hl). simpl in *. subst n.
    by destruct h.
  - exists ("user-disconnected", on_user_disconnected). split; [|done].
    apply Hsub; [done|]. unfold identitySubscriptions.
    rewrite !elem_of_cons. tauto.
Qed.

Lemma Reachable_inCall : Reachable Scenario.inCall.
Proof.
  exact (reach_step (Receive (UserJoined "u2" "Bo")) _
          (reach_step RunMediaEffect _
            (reach_step CameraSettled _
              (reach_step (RunIdentityEffect (Resolves Scenario.camera)) _
                (reach_init "Ann" "u1"))))).
Defined.

(** C3. In a running session, user-started-sharing(p2) followed by
    user-disconnected(p2) leaves no registry entry for p2 while
    [screenSharingId] is still p2. *)
Theorem sharer_disconnect_keeps_sharing_id s p2 :
  Reachable s → is_Some (identityCleanup s) →
  let s' := wsReceive (UserDisconnected p2) (wsReceive (UserStartedSharing p2) s) in
  peers s' !! p2 = None ∧ screenSharingId s' = p2.
Proof.
  intros Hr Hic. simpl.
  rewrite (receive_started_sharing s p2 Hr Hic).
  rewrite receive_user_disconnected.
  - split; [|done]. unfold removePeer, dispatch; simpl. apply lookup_delete_eq.
  - rewrite <- (receive_started_sharing s p2 Hr Hic).
    apply (reach_step (Receive (UserStartedSharing p2))), Hr.
  - done.
Qed.

Lemma sharer_disconnect_keeps_sharing_id_witness :
  let s := Scenario.inCall in
  let s' := wsReceive (UserDisconnected "u2") (wsReceive (UserStartedSharing "u2") s) in
  is_Some (peers s !! "u2") ∧ peers s' !! "u2" = None ∧ screenSharingId s' = "u2".
Proof.
  split.
  - vm_compute. eauto.
  - apply (sharer_disconnect_keeps_sharing_id Scenario.inCall "u2").
    + exact Reachable_inCall.
    + vm_compute. eauto.
Defined.

(** C4. While the peer handle or the local stream is missing nobody listens
    to user-joined: the event changes nothing (no call, no registry entry,
    nothing remembered), and the session goes on exactly as if the event had
    not arrived.  Every listener that can place a call exists only with both
    available, and holds the handle and the stream it will call with. *)
Theorem join_before_media_ready_is_dropped s :
  Reachable s →
  (∀ l, l ∈ wsListeners s → l.1 = "user-joined" →
     (∃ h st name, l.2 = on_user_joined h st name) ∧
     is_Some (me s) ∧ is_Some (stream s)) ∧
  (me s = None ∨ stream s = None →
     ∀ peerId name,
       wsReceive (UserJoined peerId name) s = s ∧
       ∀ events, run (Receive (UserJoined peerId name) :: events) s = run events s).
Proof.
  intros [Hpair _ Hjoin _ _]%Reachable_Inv. split.
  - intros [n h] Hl Hn. split; [|by eauto].
    rewrite Forall_forall in Hpair. specialize (Hpair _ Hl).
    simpl in *. subst n. destruct h; try discriminate. eauto.
  - intros Hmissing peerId name.
    assert (wsReceive (UserJoined peerId name) s = s) as Hdrop.
    { apply wsReceive_unheard. intros l Hl Hn.
      destruct Hjoin as [[h Hh] [st Hst]]; [by eauto|].
      destruct Hmissing; congruence. }
    split; [done|]. intros events. simpl. by rewrite Hdrop.
Qed.

Lemma join_before_media_ready_is_dropped_witness :
  let s := step (RunIdentityEffect (Resolves Scenario.camera)) Scenario.ann in
  stream s = None ∧
  wsReceive (UserJoined "u2" "Bo") s = s.
Proof.
  split; [reflexivity|].
  refine (proj1 (proj2 (join_before_media_ready_is_dropped
            (step (RunIdentityEffect (Resolves Scenario.camera)) Scenario.ann)
            (reach_step _ _ (reach_init "Ann" "u1")))
            (or_intror eq_refl) "u2" "Bo")).
Defined.

End Delivery.

(** ** The media effect and the inbound-call listeners *)

Section MediaEffect.

Lemma runMediaCleanup_heap s : peerHeap (runMediaCleanup s) = peerHeap s.
Proof. unfold runMediaCleanup. by destruct (mediaCleanup s). Qed.

Lemma mediaEffect_heapGrows s : heapGrows s (mediaEffect s).
Proof.
  unfold mediaEffect. repeat case_match; try (by apply heapGrows_same_heap).
  eapply heapGrows_alter; [|reflexivity].
  intros p. simpl. by apply prefix_app_r.
Qed.

Lemma runIdentityCleanup_heapGrows s : heapGrows s (runIdentityCleanup s).
Proof.
  unfold runIdentityCleanup, identityCleanupBody.
  repeat case_match; try (by apply heapGrows_same_heap).
  eapply (heapGrows_alter _ _ disconnectPeer); [|reflexivity].
  intros p. by rewrite disconnectPeer_handlers.
Qed.

Lemma identityEffect_heapGrows camera s : heapGrows s (identityEffect camera s).
Proof.
  unfold identityEffect. case_match; [|by apply heapGrows_same_heap].
  eapply heapGrows_alloc. by destruct camera.
Qed.

(** No event ever removes an [on("call")] listener from a peer object. *)
Lemma step_heapGrows e s : heapGrows s (step e s).
Proof.
  destruct e; simpl.
  - etrans; [apply runIdentityCleanup_heapGrows|apply identityEffect_heapGrows].
  - by apply heapGrows_same_heap.
  - apply heapGrows_same_heap, sharingEffect_heap.
  - etrans; [apply heapGrows_same_heap, runMediaCleanup_heap|apply mediaEffect_heapGrows].
  - etrans; [apply runIdentityCleanup_heapGrows|].
    apply heapGrows_same_heap, runMediaCleanup_heap.
  - apply heapGrows_same_heap, cameraSettled_heap.
  - apply wsReceive_heapGrows.
  - apply incomingCall_heapGrows.
  - apply remoteStream_heapGrows.
  - apply shareScreen_heapGrows.
  - apply heapGrows_same_heap, handleCameraToggle_heap.
  - apply heapGrows_same_heap, handleAudioToggle_heap.
  - by apply heapGrows_same_heap.
  - by apply heapGrows_same_heap.
  - by apply heapGrows_same_heap.
  - apply peerDisconnect_heapGrows.
  - apply peerDestroy_heapGrows.
  - apply closeConnection_heapGrows.
Qed.

(** One run of the effect with a peer handle and a stream: the pending
    clean-up (if any) touches no peer, the body adds one listener to [me]. *)
Lemma runMediaEffect_adds s h st :
  me s = Some h → stream s = Some st →
  peerHeap (runMediaEffect s) = alter (addCallHandler (answerWith st)) h (peerHeap s) ∧
  me (runMediaEffect s) = Some h ∧ stream (runMediaEffect s) = Some st ∧
  mediaCleanup (runMediaEffect s) = true.
Proof.
  intros Hme Hst. unfold runMediaEffect, mediaEffect, runMediaCleanup, mediaCleanupBody.
  destruct (mediaCleanup s); simpl; rewrite Hme, Hst; by simpl.
Qed.

Lemma runMediaEffect_iter n s h st p :
  me s = Some h → stream s = Some st → peerHeap s !! h = Some p →
  peerCallHandlers <$> peerHeap (Nat.iter n runMediaEffect s) !! h
  = Some (peerCallHandlers p ++ replicate n (answerWith st)) ∧
  me (Nat.iter n runMediaEffect s) = Some h ∧
  stream (Nat.iter n runMediaEffect s) = Some st.
Proof.
  intros Hme Hst Hp. induction n as [|n (IHh & IHme & IHst)]; simpl.
  - rewrite Hp. simpl. by rewrite app_nil_r.
  - destruct (runMediaEffect_adds _ h st IHme IHst) as (Hheap & ? & ? & _).
    split; [|done].
    rewrite Hheap, list_lookup_alter_eq.
    destruct (peerHeap (Nat.iter n runMediaEffect s) !! h) as [q|]; [|done].
    simpl in *. simplify_eq. rewrite IHh.
    rewrite <- app_assoc. do 2 f_equal.
    change (replicate n (answerWith st) ++ replicate 1 (answerWith st)
            = replicate (S n) (answerWith st)).
    rewrite <- replicate_add. f_equal. lia.
Qed.

(** C10. The clean-up of the media effect is [ws.off("user-joined")] and
    nothing else: every other component of the state, the peers' inbound-call
    listeners included, stays as it is.  No event at all detaches an
    inbound-call listener.  So every re-execution of the installed effect adds
    one more listener to the peer it runs with, after those already there, and
    [n] re-executions add [n]. *)
Theorem call_handlers_accumulate :
  (∀ s, mediaCleanupBody s
        = set_wsListeners (filter (fun l => l.1 ≠ "user-joined") (wsListeners s)) s) ∧
  (∀ e s, heapGrows s (step e s)) ∧
  (∀ s, Reachable s → mediaCleanup s = true →
     ∃ h st p, me s = Some h ∧ stream s = Some st ∧ peerHeap s !! h = Some p ∧
       ∀ n, peerCallHandlers <$> peerHeap (Nat.iter n runMediaEffect s) !! h
            = Some (peerCallHandlers p ++ replicate n (answerWith st))).
Proof.
  split; [done|]. split; [apply step_heapGrows|].
  intros s [_ _ _ Hmedia Hvalid]%Reachable_Inv Hmc.
  destruct (Hmedia Hmc) as [[h Hme] [st Hst]].
  destruct (Hvalid h Hme) as [p Hp].
  exists h, st, p. repeat split; try done.
  intros n. by apply runMediaEffect_iter.
Qed.

Lemma call_handlers_accumulate_witness :
  let s := Scenario.inCall in
  mediaCleanup s = true ∧
  ∃ h st p, me s = Some h ∧ stream s = Some st ∧ peerHeap s !! h = Some p ∧
    ∀ n, peerCallHandlers <$> peerHeap (Nat.iter n runMediaEffect s) !! h
         = Some (peerCallHandlers p ++ replicate n (answerWith st)).
Proof.
  split; [reflexivity|].
  exact (proj2 (proj2 call_handlers_accumulate) Scenario.inCall Reachable_inCall eq_refl).
Defined.

(** Two re-executions on Ann's running session (a change of her user name,
    say): three listeners on her peer, all answering with the same stream. *)
Example call_handlers_after_two_reruns :
  peerCallHandlers <$> peerHeap (run [RunMediaEffect; RunMediaEffect] Scenario.inCall) !! 0
  = Some (replicate 3 (answerWith {| trackRefs := [0; 1] |})).
Proof. reflexivity. Qed.

End MediaEffect.

(** ** End of the session *)

Section Teardown.

Lemma runMediaCleanup_no_listeners s :
  wsListeners s = [] → wsListeners (runMediaCleanup s) = [].
Proof.
  intros Hl. unfold runMediaCleanup, mediaCleanupBody.
  destruct (mediaCleanup s); simpl; by rewrite Hl.
Qed.

Lemma runIdentityCleanup_length s :
  length (peerHeap (runIdentityCleanup s)) = length (peerHeap s).
Proof.
  unfold runIdentityCleanup, identityCleanupBody.
  repeat case_match; simpl; by rewrite ?length_alter.
Qed.

Lemma runIdentityCleanup_userId s : userId (runIdentityCleanup s) = userId s.
Proof. unfold runIdentityCleanup, identityCleanupBody. by repeat case_match. Qed.

(** The clean-up of the identity effect detaches every listener there is:
    the six of the identity effect and the user-joined listeners. *)
Lemma identityCleanup_detaches_all s :
  Inv s → is_Some (identityCleanup s) → wsListeners (runIdentityCleanup s) = [].
Proof.
  intros [Hpair _ _ _ _] [captured Hic]. apply elem_of_nil_inv. intros [n h] Hl.
  unfold runIdentityCleanup, identityCleanupBody in Hl. rewrite Hic in Hl.
  assert ((n, h) ∈ wsListeners s ∧
          n ≠ "name-changed" ∧ n ≠ "user-joined" ∧ n ≠ "user-stopped-sharing" ∧
          n ≠ "user-started-sharing" ∧ n ≠ "user-disconnected" ∧
          n ≠ "get-users" ∧ n ≠ "room-created") as (Hin & Hnames).
  { destruct captured; simpl in Hl;
      repeat (apply list_elem_of_filter in Hl; destruct Hl as [? Hl]); done. }
  rewrite Forall_forall in Hpair. specialize (Hpair _ Hin). simpl in Hpair.
  destruct h; simpl in Hpair; subst n; tauto.
Qed.

(** The identity effect's clean-up never closes the peer that the same run of
    the effect created: it closes over the [me] of the render it ran in, the
    previous peer or [null], where the new peer is the local [peer]. *)
Lemma own_peer_left_open camera s :
  Reachable s → truthy (userId s) = true →
  let h := length (peerHeap s) in
  let s1 := step (RunIdentityEffect camera) s in
  me s1 = Some h ∧
  wsListeners (step Unmount s1) = [] ∧
  peerHeap (step Unmount s1) !! h = Some (newPeer (userId s)).
Proof.
  intros Hr Hid. simpl.
  pose proof (Reachable_Inv _ (reach_step (RunIdentityEffect camera) s Hr)) as HI1.
  pose proof (Inv_runIdentityCleanup s (Reachable_Inv s Hr)) as HI'.
  simpl in HI1. unfold runIdentityEffect in *.
  set (s' := runIdentityCleanup s) in *.
  assert (length (peerHeap s') = length (peerHeap s)) as Hlen
    by apply runIdentityCleanup_length.
  assert (userId s' = userId s) as Huid by apply runIdentityCleanup_userId.
  assert (identityCleanup (identityEffect camera s') = Some (me s')) as Hcap.
  { unfold identityEffect. by rewrite Huid, Hid. }
  assert (peerHeap (identityEffect camera s') = peerHeap s' ++ [newPeer (userId s)]) as Hheap.
  { unfold identityEffect. rewrite Huid, Hid. by destruct camera. }
  split; [|split].
  - unfold identityEffect. rewrite Huid, Hid. destruct camera; simpl; by rewrite Hlen.
  - apply runMediaCleanup_no_listeners, identityCleanup_detaches_all; [done|].
    rewrite Hcap. by eexists.
  - rewrite runMediaCleanup_heap. unfold runIdentityCleanup at 1.
    rewrite Hcap. unfold identityCleanupBody.
    destruct (me s') as [h0|] eqn:Hme; simpl; rewrite Hheap.
    + destruct (inv_me s' HI' h0 Hme) as [p Hp]. apply lookup_lt_Some in Hp.
      rewrite list_lookup_alter_ne by lia.
      by rewrite <- Hlen, lookup_app_r, Nat.sub_diag.
    + by rewrite <- Hlen, lookup_app_r, Nat.sub_diag.
Qed.

(** C5, on Ann's session. The identity effect creates her peer (handle 0) and
    installs the subscriptions; when the session ends every subscription is
    detached, and her peer is still as [new Peer] made it: not disconnected. *)
Theorem session_end_leaves_own_peer_open :
  let s1 := step (RunIdentityEffect (Resolves Scenario.camera)) Scenario.ann in
  let s2 := step Unmount s1 in
  me s1 = Some 0 ∧
  wsListeners s1 = identitySubscriptions ∧
  identityCleanup s1 = Some None ∧
  wsListeners s2 = [] ∧
  peerHeap s2 !! 0 = Some (newPeer "u1") ∧
  peerDisconnected (newPeer "u1") = false.
Proof. vm_compute. by repeat split. Qed.

(** A second identity (u1 then u9): the second run's clean-up closes the
    first peer and leaves the second, its own, open. *)
Example second_session_end :
  let s := run [RunIdentityEffect (Resolves Scenario.camera); SetUserId "u9";
                RunIdentityEffect (Resolves Scenario.camera); Unmount] Scenario.ann in
  me s = Some 1 ∧
  peerDisconnected <$> peerHeap s !! 0 = Some true ∧
  peerDisconnected <$> peerHeap s !! 1 = Some false.
Proof. vm_compute. by repeat split. Qed.

Example third_session_end :
  let s := run [RunIdentityEffect (Resolves Scenario.camera); SetUserId "u8";
                RunIdentityEffect (Resolves Scenario.camera); SetUserId "u9";
                RunIdentityEffect (Resolves Scenario.camera); Unmount] Scenario.ann in
  me s = Some 2 ∧
  peerDisconnected <$> peerHeap s !! 0 = Some true ∧
  peerDisconnected <$> peerHeap s !! 1 = Some true ∧
  peerDisconnected <$> peerHeap s !! 2 = Some false.
Proof. vm_compute. by repeat split. Qed.

End Teardown.

(** ** Camera acquisition *)

Section Acquisition.

(** A rejected camera promise reaches no handler: nothing is written to the
    console by the settlement, the stream stays as it was, and the rejection
    escapes. *)
Lemma rejected_camera_escapes err rest s :
  pendingCamera s = Rejected err :: rest →
  console (cameraSettled s) = console s ∧
  stream (cameraSettled s) = stream s ∧
  escaped (cameraSettled s) = escaped s ++ [err].
Proof. intros Hp. unfold cameraSettled. by rewrite Hp. Qed.

(** Only a synchronous exception of [getUserMedia] reaches the [catch]. *)
Lemma sync_camera_failure_logged err s :
  console (requestCamera (SyncThrow err) s) = console s ++ [ConsoleError err] ∧
  escaped (requestCamera (SyncThrow err) s) = escaped s.
Proof. done. Qed.

(** C8, on Ann's session with the permission denied: the stream stays
    absent, but the console holds only the "peer" line (no [console.error])
    and the rejection is unhandled. *)
Theorem camera_denial_not_logged :
  stream Scenario.denied = None ∧
  console Scenario.denied = [ConsoleLog "peer"] ∧
  escaped Scenario.denied = ["NotAllowedError"] ∧
  pendingCamera Scenario.denied = [].
Proof. vm_compute. by repeat split. Qed.

End Acquisition.

(** ** The local stop path of screen sharing *)

Section LocalStop.

(** With a peer handle, a granted capture always ends with [screenSharingId]
    equal to the peer's own id, on the stop path as on the start path. *)
Lemma shareScreen_sets_own_id tracks s h p :
  me s = Some h → peerHeap s !! h = Some p →
  screenSharingId (shareScreen (Resolves tracks) s) = default "" (peerObjId p).
Proof.
  intros Hme Hp. unfold shareScreen, allocStream, switchStream. simpl.
  rewrite Hme, Hp.
  destruct (switchConnections _ _ _) as [[cs out] thrown].
  destruct (truthy (screenSharingId s)), thrown; reflexivity.
Qed.

(** C2, on Ann's session. She is sharing ([screenSharingId] is her id u1) and
    presses the button again; the camera is granted as tracks 3 and 4.  The
    sender of her connection to Bo gets the new camera video track 3, but
    [screenSharingId] is still u1, not empty. *)
Theorem local_stop_keeps_sharing_id :
  screenSharingId Scenario.sharing = "u1" ∧
  truthy (screenSharingId Scenario.sharing) = true ∧
  screenSharingId Scenario.stopped = "u1" ∧
  trackHeap Scenario.stopped !! 3 = Some {| kind := video; enabled := true |} ∧
  (peerHeap Scenario.stopped !! 0 ≫= fun p =>
   head (connectionsWith "u2" (peerConnections p)) ≫= fun c =>
   Some (map senderTrack (connSenders c))) = Some [Some 3; Some 1].
Proof. vm_compute. by repeat split. Qed.

(** The remote stop, for comparison, does clear it. *)
Example remote_stop_clears_sharing_id :
  screenSharingId (step (Receive UserStoppedSharing) Scenario.sharing) = "".
Proof. reflexivity. Qed.

End LocalStop.

(** * Further properties *)

(** ** More on the toggles *)

Section MoreToggles.

Lemma flipAll_comm a b heap : flipAll a (flipAll b heap) = flipAll b (flipAll a heap).
Proof.
  revert heap. induction a as [|r a IH]; intros heap; [done|].
  by rewrite !flipAll_cons, <- (flipAll_flip b), IH.
Qed.

Lemma flipAll_length refs heap : length (flipAll refs heap) = length heap.
Proof.
  revert heap. induction refs as [|r refs IH]; intros heap; [done|].
  by rewrite flipAll_cons, IH, length_alter.
Qed.

Lemma flipAll_lookup_notin refs heap r :
  r ∉ refs → flipAll refs heap !! r = heap !! r.
Proof.
  revert heap. induction refs as [|r' refs IH]; intros heap Hr; [done|].
  apply not_elem_of_cons in Hr as [Hne Hr].
  by rewrite flipAll_cons, IH, list_lookup_alter_ne.
Qed.

Lemma flipAll_lookup_in refs heap r :
  NoDup refs → r ∈ refs → flipAll refs heap !! r = flipEnabled <$> heap !! r.
Proof.
  revert heap. induction refs as [|r' refs IH]; intros heap Hnd Hr.
  { by apply elem_of_nil in Hr. }
  apply NoDup_cons in Hnd as [Hnotin Hnd]. rewrite flipAll_cons.
  apply elem_of_cons in Hr as [->|Hr].
  - by rewrite flipAll_lookup_notin, list_lookup_alter_eq.
  - rewrite IH by done. rewrite list_lookup_alter_ne; [done|].
    intros ->. done.
Qed.

(** X1. Two successive microphone toggles restore the whole state. *)
Theorem handleAudioToggle_twice s :
  handleAudioToggle (handleAudioToggle s) = s.
Proof.
  rewrite (handleAudioToggle_closed s).
  destruct (stream s) as [st|] eqn:Hst.
  2: { rewrite handleAudioToggle_closed. by rewrite Hst. }
  destruct (getAudioTracks (trackHeap s) st) as [|r tracks] eqn:Htr.
  { rewrite handleAudioToggle_closed. by rewrite Hst, Htr. }
  rewrite handleAudioToggle_closed.
  cbn [stream trackHeap isAudioOn set_isAudioOn set_trackHeap].
  rewrite Hst. unfold getAudioTracks in *.
  rewrite filter_hasKind_flipAll, Htr.
  rewrite flipAll_involutive, negb_involutive.
  by destruct s.
Qed.

(** X2. The camera toggle touches nothing but the video tracks of the local
    stream and [isCameraOn]: every other track keeps its enabled flag, no
    track changes kind or is added or dropped, and the microphone flag, the
    stream cell, the registry, the sharing id and the peers stay. *)
Theorem handleCameraToggle_frame s :
  let s' := handleCameraToggle s in
  (∀ r, (∀ st, stream s = Some st → r ∉ getVideoTracks (trackHeap s) st) →
        trackHeap s' !! r = trackHeap s !! r) ∧
  (∀ r k, hasKind k (trackHeap s') r = hasKind k (trackHeap s) r) ∧
  length (trackHeap s') = length (trackHeap s) ∧
  set_isCameraOn (isCameraOn s) (set_trackHeap (trackHeap s) s')
  = s.
Proof.
  simpl. rewrite handleCameraToggle_closed.
  destruct (stream s) as [st|] eqn:Hst.
  2: { repeat split; try done. by destruct s. }
  destruct (getVideoTracks (trackHeap s) st) as [|r0 tracks] eqn:Htr.
  { repeat split; try done. by destruct s. }
  cbn [trackHeap set_isCameraOn set_trackHeap]. repeat split.
  - intros r Hr. apply flipAll_lookup_notin. rewrite <- Htr. by apply Hr.
  - intros r k. apply hasKind_flipAll.
  - apply flipAll_length.
  - by destruct s.
Qed.

Lemma handleCameraToggle_frame_witness :
  let s := Scenario.alone in
  trackHeap (handleCameraToggle s) !! 1 = trackHeap s !! 1.
Proof.
  refine (proj1 (handleCameraToggle_frame Scenario.alone) 1 _).
  intros st Hst. vm_compute in Hst. injection Hst as <-. vm_compute.
  intros H. inversion H as [|? ? ? H']; subst. inversion H'.
Defined.

(** X3. The camera toggle and the microphone toggle commute. *)
Theorem toggles_commute s :
  handleCameraToggle (handleAudioToggle s) = handleAudioToggle (handleCameraToggle s).
Proof.
  rewrite (handleAudioToggle_closed s), (handleCameraToggle_closed s).
  destruct (stream s) as [st|] eqn:Hst.
  2: { rewrite handleCameraToggle_closed, handleAudioToggle_closed. by rewrite Hst. }
  destruct (getAudioTracks (trackHeap s) st) as [|a at_] eqn:Ha;
    destruct (getVideoTracks (trackHeap s) st) as [|v vt] eqn:Hv;
    rewrite ?handleCameraToggle_closed, ?handleAudioToggle_closed;
    cbn [stream trackHeap isCameraOn isAudioOn set_isCameraOn set_isAudioOn set_trackHeap];
    rewrite ?Hst; unfold getVideoTracks, getAudioTracks in *;
    rewrite ?filter_hasKind_flipAll, ?Ha, ?Hv; try done.
  cbn [stream trackHeap isCameraOn isAudioOn set_isCameraOn set_isAudioOn set_trackHeap].
  rewrite (flipAll_comm (v :: vt)). by destruct s.
Qed.

End MoreToggles.

(** ** What the handlers keep of peers, tracks and the stream *)

Section Stability.

#[global] Instance stable_refl : Reflexive stable.
Proof. intros s. split; try done. intros h p Hp. by exists p. Qed.

#[global] Instance stable_trans : Transitive stable.
Proof.
  intros a b c [Hs1 Ht1 Hl1 Hp1] [Hs2 Ht2 Hl2 Hp2]. split.
  - congruence.
  - lia.
  - congruence.
  - intros h p Hp. destruct (Hp1 h p Hp) as (p' & Hp' & Hd & Hi).
    destruct (Hp2 h p' Hp') as (p'' & Hp'' & Hd' & Hi').
    exists p''. repeat split; congruence.
Qed.

Lemma foldl_stable {A} (f : RoomState → A → RoomState) (l : list A) s :
  (∀ acc x, stable acc (f acc x)) → stable s (foldl f s l).
Proof.
  intros Hf. revert s. induction l as [|x l IH]; intros s; simpl; [done|].
  etrans; [apply (Hf s x)|apply IH].
Qed.

Lemma stable_same_heap s s' :
  stream s' = stream s → (length (trackHeap s) ≤ length (trackHeap s'))%nat →
  peerHeap s' = peerHeap s → stable s s'.
Proof.
  intros Hs Ht Hh. split; try done; rewrite Hh; [done|].
  intros h p Hp. by exists p.
Qed.

Lemma stable_alter s s' f h :
  stream s' = stream s → (length (trackHeap s) ≤ length (trackHeap s'))%nat →
  (∀ p, peerDisconnected (f p) = peerDisconnected p ∧ peerObjId (f p) = peerObjId p) →
  peerHeap s' = alter f h (peerHeap s) → stable s s'.
Proof.
  intros Hs Ht Hf Hh. split; try done; rewrite Hh; [by rewrite length_alter|].
  intros i p Hp. destruct (decide (h = i)) as [->|Hne].
  - exists (f p). rewrite list_lookup_alter_eq, Hp. split; [done|]. apply Hf.
  - exists p. by rewrite list_lookup_alter_ne.
Qed.

Lemma stable_insert s s' h p p' :
  stream s' = stream s → (length (trackHeap s) ≤ length (trackHeap s'))%nat →
  peerHeap s !! h = Some p →
  peerDisconnected p' = peerDisconnected p → peerObjId p' = peerObjId p →
  peerHeap s' = <[h := p']> (peerHeap s) → stable s s'.
Proof.
  intros Hs Ht Hp Hd Hi Hh. split; try done; rewrite Hh; [by rewrite length_insert|].
  intros i q Hq. destruct (decide (h = i)) as [->|Hne].
  - exists p'. rewrite list_lookup_insert_eq by (by eapply lookup_lt_Some).
    split; [done|]. simplify_eq. done.
  - exists q. by rewrite list_lookup_insert_ne.
Qed.

Lemma applyHandler_stable h m s : stable s (applyHandler h m s).
Proof.
  destruct h, m; simpl; try reflexivity;
    unfold enterRoom, getUsers, removePeer, requestStart, requestStop,
      nameChangedHandler, userJoined, outboundCall, dispatch, escape, consoleWrite;
    repeat case_match; simplify_eq; try (by apply stable_same_heap).
  eapply stable_insert; [done|done|eassumption| | |reflexivity]; done.
Qed.

Lemma wsReceive_stable m s : stable s (wsReceive m s).
Proof.
  unfold wsReceive, deliver. apply foldl_stable. intros acc l.
  case_bool_decide; [apply applyHandler_stable|reflexivity].
Qed.

Lemma onCall_stable h caller name st s : stable s (onCall h caller name st s).
Proof.
  unfold onCall, dispatch. eapply stable_alter; [done|done| |reflexivity].
  by intros p.
Qed.

Lemma incomingCall_stable h caller name s : stable s (incomingCall h caller name s).
Proof.
  unfold incomingCall. repeat case_match; try reflexivity.
  etrans; [|apply foldl_stable; intros acc []; apply onCall_stable].
  eapply stable_insert; [done|done|eassumption| | |reflexivity]; done.
Qed.

Lemma remoteStream_stable h k i tracks s : stable s (remoteStream h k i tracks s).
Proof.
  unfold remoteStream, allocStream. repeat case_match; try reflexivity. simplify_eq.
  etrans; [|apply foldl_stable; intros acc id; by apply stable_same_heap].
  apply stable_same_heap; try done. simpl. rewrite length_app. lia.
Qed.

Lemma switchStream_stable st s : stable s (switchStream st s).1.
Proof.
  unfold switchStream. repeat case_match; simpl; try reflexivity.
  eapply stable_insert; [done|done|eassumption| | |reflexivity]; done.
Qed.

Lemma shareScreen_stable capture s : stable s (shareScreen capture s).
Proof.
  unfold shareScreen, allocStream.
  repeat case_match; simplify_eq; try (by apply stable_same_heap);
    match goal with
    | H : switchStream ?st ?s0 = (?s1, _) |- stable ?s ?t =>
        transitivity s0;
          [apply stable_same_heap; try done; simpl; rewrite length_app; lia|];
        transitivity s1;
          [pose proof (switchStream_stable st s0) as Hk; by rewrite H in Hk|];
        apply stable_same_heap; unfold escapeIf; by repeat case_match
    end.
Qed.

Lemma handleCameraToggle_stable s : stable s (handleCameraToggle s).
Proof.
  rewrite handleCameraToggle_closed.
  repeat case_match; try reflexivity.
  apply stable_same_heap; try done.
  cbn [trackHeap set_isCameraOn set_isAudioOn set_trackHeap]. by rewrite flipAll_length.
Qed.

Lemma handleAudioToggle_stable s : stable s (handleAudioToggle s).
Proof.
  rewrite handleAudioToggle_closed.
  repeat case_match; try reflexivity.
  apply stable_same_heap; try done.
  cbn [trackHeap set_isCameraOn set_isAudioOn set_trackHeap]. by rewrite flipAll_length.
Qed.

Lemma sharingEffect_stable s : stable s (sharingEffect s).
Proof. unfold sharingEffect. case_match; by apply stable_same_heap. Qed.

End Stability.

(** ** The session invariant *)

Section Session.

Lemma other_of_join (ls : list (string * WsHandler)) :
  filter (fun l => l.1 = "user-joined") (filter (fun l => l.1 ≠ "user-joined") ls) = [].
Proof.
  induction ls as [|l ls IH]; [done|].
  rewrite (filter_cons (fun l => l.1 ≠ "user-joined")). case_decide; [|done].
  by rewrite filter_cons_False.
Qed.

Lemma other_of_other (ls : list (string * WsHandler)) :
  filter (fun l => l.1 ≠ "user-joined") (filter (fun l => l.1 ≠ "user-joined") ls)
  = filter (fun l => l.1 ≠ "user-joined") ls.
Proof.
  induction ls as [|l ls IH]; [done|].
  rewrite (filter_cons (fun l => l.1 ≠ "user-joined")). case_decide; [|done].
  rewrite filter_cons_True by done. by rewrite IH.
Qed.

Lemma listeners_split (ls : list (string * WsHandler)) :
  filter (fun l => l.1 = "user-joined") ls = [] →
  filter (fun l => l.1 ≠ "user-joined") ls = [] → ls = [].
Proof.
  intros Hj Ho. apply elem_of_nil_inv. intros l Hl.
  destruct (decide (l.1 = "user-joined")) as [Heq|Hne].
  - by apply (filter_nil_not_elem_of _ _ l Hj).
  - by apply (filter_nil_not_elem_of _ _ l Ho).
Qed.

Lemma SessionInv_init name uid : SessionInv (initialRoom name uid).
Proof.
  split; simpl; try done.
  - intros l Hl. by apply elem_of_nil in Hl.
  - unfold joinListeners. simpl. lia.
Qed.

(** Steps that keep subscriptions, clean-ups and the peer handle, and that
    create no peer and reopen none. *)
Lemma SessionInv_frame_gen s s' :
  SessionInv s → keeps s s' →
  length (peerHeap s') = length (peerHeap s) →
  (∀ h p, peerHeap s !! h = Some p →
     ∃ p', peerHeap s' !! h = Some p' ∧
           (peerDisconnected p' = false → peerDisconnected p = false)) →
  (∀ st, stream s' = Some st →
     NoDup (trackRefs st) ∧ ∀ r, r ∈ trackRefs st → (r < length (trackHeap s'))%nat) →
  SessionInv s'.
Proof.
  intros [Hid Hjoin Hone Hcap Hclosed Hstream] [Hl Hic Hmc Hme' _] Hlen Hpeer Hst.
  split.
  - unfold otherListeners in *. by rewrite Hl, Hic.
  - unfold joinListeners in *. rewrite Hl, Hmc. intros l Hin.
    destruct (Hjoin l Hin) as (? & h & st & n & -> & [p Hp]).
    split; [done|]. destruct (Hpeer h p Hp) as (p' & Hp' & _).
    exists h, st, n. split; [done|]. by exists p'.
  - unfold joinListeners in *. by rewrite Hl.
  - intros h0. rewrite Hic, Hme'. apply Hcap.
  - intros h p' Hp' Hd'. rewrite Hic, Hme'.
    assert (is_Some (peerHeap s !! h)) as [p Hp].
    { apply lookup_lt_is_Some. rewrite <- Hlen. by eapply lookup_lt_Some. }
    destruct (Hpeer h p Hp) as (q & Hq & Hdq). simplify_eq.
    apply (Hclosed h p Hp). by apply Hdq.
  - done.
Qed.

Lemma SessionInv_frame s s' : SessionInv s → keeps s s' → stable s s' → SessionInv s'.
Proof.
  intros HI Hk [Hs Ht Hl Hp].
  apply (SessionInv_frame_gen s s' HI Hk Hl).
  - intros h p Hh. destruct (Hp h p Hh) as (p' & Hp' & Hd & _).
    exists p'. split; [done|]. congruence.
  - intros st Hst. rewrite Hs in Hst.
    destruct (sinv_stream s HI st Hst) as [Hnd Hr]. split; [done|].
    intros r Hin. specialize (Hr r Hin). lia.
Qed.

(** PeerJS closing a peer or a connection on its own. *)
Lemma SessionInv_alter s f h :
  SessionInv s →
  (∀ p, peerDisconnected (f p) = false → peerDisconnected p = false) →
  SessionInv (set_peerHeap (alter f h (peerHeap s)) s).
Proof.
  intros HI Hf. apply (SessionInv_frame_gen s _ HI); simpl.
  - by split.
  - by rewrite length_alter.
  - intros i p Hp. destruct (decide (h = i)) as [->|Hne].
    + exists (f p). rewrite list_lookup_alter_eq, Hp. split; [done|]. apply Hf.
    + exists p. by rewrite list_lookup_alter_ne.
  - apply (sinv_stream s HI).
Qed.

Lemma SessionInv_cameraSettled s : SessionInv s → SessionInv (cameraSettled s).
Proof.
  intros HI. apply (SessionInv_frame_gen s _ HI (cameraSettled_keeps s)).
  - by rewrite cameraSettled_heap.
  - rewrite cameraSettled_heap. intros h p Hp. by exists p.
  - unfold cameraSettled, allocStream, escape.
    destruct (pendingCamera s) as [|[tracks|err] rest]; simpl.
    + apply (sinv_stream s HI).
    + intros st [= <-]. simpl. split; [apply NoDup_seq|].
      intros r [? ?]%elem_of_seq. rewrite length_app. lia.
    + apply (sinv_stream s HI).
Qed.

Lemma no_join_without_media s :
  SessionInv s → mediaCleanup s = false → joinListeners s = [].
Proof.
  intros HI Hmc. apply elem_of_nil_inv. intros l Hl.
  destruct (sinv_join s HI l Hl) as [Htrue _]. congruence.
Qed.

Lemma SessionInv_runMediaCleanup s :
  SessionInv s →
  SessionInv (runMediaCleanup s) ∧ joinListeners (runMediaCleanup s) = [] ∧
  mediaCleanup (runMediaCleanup s) = false.
Proof.
  intros HI. unfold runMediaCleanup, mediaCleanupBody.
  destruct (mediaCleanup s) eqn:Hmc.
  2: { split; [done|]. split; [by apply no_join_without_media|done]. }
  assert (joinListeners (wsOff "user-joined" (set_mediaCleanup false s)) = []) as Hnone
    by apply other_of_join.
  split; [|done].
  destruct HI as [Hid Hjoin Hone Hcap Hclosed Hstream]. split; try done.
  - unfold otherListeners in *. simpl. by rewrite other_of_other.
  - rewrite Hnone. intros l Hl. by apply elem_of_nil in Hl.
  - rewrite Hnone. simpl. lia.
Qed.

Lemma disconnectPeer_disconnected p : peerDisconnected (disconnectPeer p) = true.
Proof. unfold disconnectPeer. by destruct (peerDisconnected p) eqn:Hd. Qed.

Lemma SessionInv_no_media s :
  SessionInv s → joinListeners s = [] → SessionInv (set_mediaCleanup false s).
Proof.
  intros [Hid Hjoin Hone Hcap Hclosed Hstream] Hnone. split; try done.
  intros l Hl.
  change (joinListeners (set_mediaCleanup false s)) with (joinListeners s) in Hl.
  rewrite Hnone in Hl. by apply elem_of_nil in Hl.
Qed.

Lemma SessionInv_mediaEffect s :
  Inv s → SessionInv s → joinListeners s = [] → SessionInv (mediaEffect s).
Proof.
  intros HInv HI Hnone. unfold mediaEffect.
  destruct (me s) as [h|] eqn:Hh, (stream s) as [st|] eqn:Hst;
    try (by apply SessionInv_no_media).
  destruct HI as [Hid Hjoin Hone Hcap Hclosed Hstream].
  destruct (inv_me s HInv h Hh) as [p Hp].
  assert (joinListeners
            (set_mediaCleanup true
               (peerOnCall h (answerWith st)
                  (wsOn "user-joined" (on_user_joined h st (userName s)) s)))
          = [("user-joined", on_user_joined h st (userName s))]) as Hj.
  { unfold joinListeners in *. simpl. by rewrite filter_app, Hnone. }
  split.
  - unfold otherListeners in *. simpl. rewrite filter_app, Hid.
    by rewrite app_nil_r.
  - rewrite Hj. intros l ->%list_elem_of_singleton. split; [done|].
    exists h, st, (userName s). split; [done|].
    exists (addCallHandler (answerWith st) p).
    simpl. by rewrite list_lookup_alter_eq, Hp.
  - rewrite Hj. simpl. lia.
  - exact Hcap.
  - simpl. rewrite Hh. intros h' q Hq Hdq.
    destruct (decide (h = h')) as [->|Hne]; [by left|].
    rewrite list_lookup_alter_ne in Hq by done. rewrite <- Hh.
    by apply (Hclosed h' q).
  - simpl. rewrite Hst. rewrite <- Hst. exact Hstream.
Qed.

Lemma identityCleanup_after_cleanup s : identityCleanup (runIdentityCleanup s) = None.
Proof.
  unfold runIdentityCleanup, identityCleanupBody.
  destruct (identityCleanup s) as [[h|]|] eqn:Hic; done.
Qed.

Lemma SessionInv_runIdentityCleanup s :
  Inv s → SessionInv s → SessionInv (runIdentityCleanup s).
Proof.
  intros HInv HI.
  destruct (identityCleanup s) as [captured|] eqn:Hic.
  2: { unfold runIdentityCleanup. by rewrite Hic. }
  assert (wsListeners (runIdentityCleanup s) = []) as Hnone
    by (apply identityCleanup_detaches_all; [done|by rewrite Hic]).
  pose proof (identityCleanup_after_cleanup s) as Hnoc.
  destruct HI as [Hid Hjoin Hone Hcap Hclosed Hstream].
  assert (me (runIdentityCleanup s) = me s) as Hsame_me.
  { unfold runIdentityCleanup, identityCleanupBody. rewrite Hic. by destruct captured. }
  assert (stream (runIdentityCleanup s) = stream s ∧
          trackHeap (runIdentityCleanup s) = trackHeap s) as [Hsame_st Hsame_tr].
  { unfold runIdentityCleanup, identityCleanupBody. rewrite Hic. by destruct captured. }
  assert (peerHeap (runIdentityCleanup s)
          = match captured with
            | Some h0 => alter disconnectPeer h0 (peerHeap s)
            | None => peerHeap s
            end) as Hheap.
  { unfold runIdentityCleanup, identityCleanupBody. rewrite Hic. by destruct captured. }
  split.
  - unfold otherListeners. by rewrite Hnone, Hnoc.
  - unfold joinListeners. rewrite Hnone. intros l Hl. by apply elem_of_nil in Hl.
  - unfold joinListeners. rewrite Hnone. simpl. lia.
  - rewrite Hnoc. done.
  - rewrite Hsame_me, Hheap, Hnoc. intros h q Hq Hdq. left.
    destruct captured as [h0|].
    + destruct (decide (h0 = h)) as [->|Hne].
      * rewrite list_lookup_alter_eq in Hq.
        destruct (peerHeap s !! h) as [p|]; [|done]. simpl in Hq. simplify_eq.
        by rewrite disconnectPeer_disconnected in Hdq.
      * rewrite list_lookup_alter_ne in Hq by done.
        destruct (Hclosed h q Hq Hdq) as [?|?]; [done|congruence].
    + destruct (Hclosed h q Hq Hdq) as [?|?]; [done|congruence].
  - by rewrite Hsame_st, Hsame_tr.
Qed.

Lemma identityEffect_fields camera s :
  truthy (userId s) = true →
  wsListeners (identityEffect camera s) = wsListeners s ++ identitySubscriptions ∧
  me (identityEffect camera s) = Some (length (peerHeap s)) ∧
  peerHeap (identityEffect camera s) = peerHeap s ++ [newPeer (userId s)] ∧
  identityCleanup (identityEffect camera s) = Some (me s) ∧
  mediaCleanup (identityEffect camera s) = mediaCleanup s ∧
  stream (identityEffect camera s) = stream s ∧
  trackHeap (identityEffect camera s) = trackHeap s.
Proof.
  intros Hid. unfold identityEffect. rewrite Hid.
  destruct camera; simpl; rewrite <- !app_assoc; by repeat split.
Qed.

Lemma SessionInv_identityEffect camera s :
  Inv s → SessionInv s → identityCleanup s = None →
  SessionInv (identityEffect camera s).
Proof.
  intros HInv HI Hnoc.
  destruct HI as [Hid Hjoin Hone Hcap Hclosed Hstream].
  rewrite Hnoc in Hid.
  destruct (truthy (userId s)) eqn:Huid.
  2: { unfold identityEffect. rewrite Huid. split; try done.
       simpl. intros h q Hq Hdq. left.
       destruct (Hclosed h q Hq Hdq) as [?|?]; [done|congruence]. }
  destruct (identityEffect_fields camera s Huid)
    as (Hl & Hm & Hh & Hc & Hmc & Hst & Htr).
  assert (joinListeners (identityEffect camera s) = joinListeners s) as Hj.
  { unfold joinListeners. rewrite Hl, filter_app.
    by rewrite app_nil_r. }
  split.
  - unfold otherListeners in *. rewrite Hl, Hc, filter_app, Hid. done.
  - rewrite Hj, Hmc, Hh. intros l Hin.
    destruct (Hjoin l Hin) as (? & h & st & n & -> & [p Hp]).
    split; [done|]. exists h, st, n. split; [done|]. exists p.
    by apply lookup_app_l_Some.
  - by rewrite Hj.
  - rewrite Hm, Hc. intros h0 [= Hold] [= Hnew].
    destruct (inv_me s HInv h0 Hold) as [p Hp].
    apply lookup_lt_Some in Hp. lia.
  - rewrite Hm, Hc, Hh. intros h q Hq Hdq.
    destruct (decide (h = length (peerHeap s))) as [->|Hne]; [by left|]. right.
    assert (h < length (peerHeap s))%nat as Hlt.
    { apply lookup_lt_Some in Hq. rewrite length_app in Hq. simpl in Hq. lia. }
    rewrite lookup_app_l in Hq by done.
    destruct (Hclosed h q Hq Hdq) as [->|?]; [done|congruence].
  - by rewrite Hst, Htr.
Qed.

(** Every event preserves the session invariant. *)
Lemma SessionInv_step e s : Inv s → SessionInv s → SessionInv (step e s).
Proof.
  intros HInv HI. destruct e; simpl.
  - apply SessionInv_identityEffect.
    + by apply Inv_runIdentityCleanup.
    + by apply SessionInv_runIdentityCleanup.
    + apply identityCleanup_after_cleanup.
  - apply (SessionInv_frame s); [done|by split|by apply stable_same_heap].
  - apply (SessionInv_frame s); [done|apply sharingEffect_keeps|apply sharingEffect_stable].
  - destruct (SessionInv_runMediaCleanup s HI) as (HI' & Hnone & _).
    apply SessionInv_mediaEffect; [by apply Inv_runMediaCleanup|done|done].
  - by apply SessionInv_runMediaCleanup, SessionInv_runIdentityCleanup.
  - by apply SessionInv_cameraSettled.
  - apply (SessionInv_frame s); [done|apply wsReceive_keeps|apply wsReceive_stable].
  - apply (SessionInv_frame s); [done|apply incomingCall_keeps|apply incomingCall_stable].
  - apply (SessionInv_frame s); [done|apply remoteStream_keeps|apply remoteStream_stable].
  - apply (SessionInv_frame s); [done|apply shareScreen_keeps|apply shareScreen_stable].
  - apply (SessionInv_frame s);
      [done|apply handleCameraToggle_keeps|apply handleCameraToggle_stable].
  - apply (SessionInv_frame s);
      [done|apply handleAudioToggle_keeps|apply handleAudioToggle_stable].
  - apply (SessionInv_frame s); [done|by split|by apply stable_same_heap].
  - apply (SessionInv_frame s); [done|by split|by apply stable_same_heap].
  - apply (SessionInv_frame s); [done|by split|by apply stable_same_heap].
  - apply SessionInv_alter; [done|].
    intros p. by rewrite disconnectPeer_disconnected.
  - apply SessionInv_alter; [done|].
    intros p. unfold destroyPeer. simpl. by rewrite disconnectPeer_disconnected.
  - by apply SessionInv_alter.
Qed.

Lemma Reachable_SessionInv s : Reachable s → SessionInv s.
Proof.
  induction 1 as [name uid|e s Hr IH]; [apply SessionInv_init|].
  apply SessionInv_step; [by apply Reachable_Inv|done].
Qed.

End Session.

(** ** Consequences of the session invariant *)

Section SessionFacts.

Lemma deliver_filter m (P : string * WsHandler → Prop) `{∀ l, Decision (P l)} ls s :
  (∀ l, l ∈ ls → ¬ P l → l.1 ≠ eventName m) →
  deliver m ls s = deliver m (filter P ls) s.
Proof.
  revert s. induction ls as [|l ls IH]; intros s Hskip; [done|].
  assert (∀ l', l' ∈ ls → ¬ P l' → l'.1 ≠ eventName m) as Hrest
    by (intros l' Hl'; apply Hskip; by apply list_elem_of_further).
  rewrite filter_cons. destruct (decide (P l)) as [HP|HnP].
  - unfold deliver in *. simpl. by rewrite !IH.
  - unfold deliver in *. simpl.
    rewrite bool_decide_eq_false_2 by (apply Hskip; [apply list_elem_of_here|done]).
    by apply IH.
Qed.

Lemma deliver_subscriptions m s :
  eventName m ≠ "user-joined" → deliver m identitySubscriptions s = handle m s.
Proof. intros Hm. by destruct m. Qed.

(** X4. In a session, a message of one of the six kinds the identity effect
    subscribes to runs its handler exactly once while the effect is installed
    (so room-created navigates once, the registry gets one action), and is
    ignored when it is not. *)
Theorem identity_messages_handled_once s m :
  Reachable s → eventName m ≠ "user-joined" →
  wsReceive m s = match identityCleanup s with
                  | Some _ => handle m s
                  | None => s
                  end.
Proof.
  intros Hr Hm. pose proof (sinv_identity s (Reachable_SessionInv s Hr)) as Hid.
  unfold wsReceive.
  rewrite (deliver_filter m (fun l => l.1 ≠ "user-joined")).
  2: { intros l _ Hl. apply dec_stable in Hl. congruence. }
  fold (otherListeners s). rewrite Hid.
  destruct (identityCleanup s); [by apply deliver_subscriptions|done].
Qed.

Lemma identity_messages_handled_once_witness :
  pushed (wsReceive (RoomCreated "r1") Scenario.inCall)
  = pushed Scenario.inCall ++ ["/room/r1"].
Proof.
  rewrite (identity_messages_handled_once Scenario.inCall (RoomCreated "r1")
             Reachable_inCall);
    [reflexivity|discriminate].
Defined.

Lemma runMediaCleanup_identityCleanup s :
  identityCleanup (runMediaCleanup s) = identityCleanup s.
Proof. unfold runMediaCleanup. by destruct (mediaCleanup s). Qed.

(** X5. When the component unmounts no listener is left on the signaling
    socket, whatever the session went through, and from then on no signaling
    message changes anything. *)
Theorem unmount_detaches_everything s :
  Reachable s →
  wsListeners (step Unmount s) = [] ∧
  ∀ m, wsReceive m (step Unmount s) = step Unmount s.
Proof.
  intros Hr.
  assert (wsListeners (step Unmount s) = []) as Hnone.
  { pose proof (SessionInv_runIdentityCleanup s (Reachable_Inv s Hr)
                  (Reachable_SessionInv s Hr)) as HI.
    destruct (SessionInv_runMediaCleanup _ HI) as (HI' & Hj & _).
    apply listeners_split; [exact Hj|].
    pose proof (sinv_identity _ HI') as Hid. simpl.
    unfold otherListeners in Hid.
    by rewrite runMediaCleanup_identityCleanup, identityCleanup_after_cleanup in Hid. }
  split; [done|]. intros m. apply wsReceive_unheard. rewrite Hnone.
  intros l Hl. by apply elem_of_nil in Hl.
Qed.

Lemma unmount_detaches_everything_witness :
  wsReceive (GetUsers ∅) (step Unmount Scenario.inCall) = step Unmount Scenario.inCall.
Proof.
  exact (proj2 (unmount_detaches_everything Scenario.inCall Reachable_inCall) (GetUsers ∅)).
Defined.

(** X6. The peers of a session: every peer object other than the current
    one and the one the pending clean-up of the identity effect holds has been
    disconnected, so at most two are ever connected. *)
Theorem unheld_peers_are_closed s h p :
  Reachable s →
  peerHeap s !! h = Some p → peerDisconnected p = false →
  me s = Some h ∨ identityCleanup s = Some (Some h).
Proof.
  intros HI%Reachable_SessionInv. apply (sinv_closed s HI).
Qed.

Lemma unheld_peers_are_closed_witness :
  let s := run [RunIdentityEffect (Resolves Scenario.camera); SetUserId "u8";
                RunIdentityEffect (Resolves Scenario.camera)] Scenario.ann in
  me s = Some 0 ∨ identityCleanup s = Some (Some 0).
Proof.
  eapply (unheld_peers_are_closed _ 0).
  - exact (reach_step (RunIdentityEffect (Resolves Scenario.camera)) _
            (reach_step (SetUserId "u8") _
              (reach_step (RunIdentityEffect (Resolves Scenario.camera)) _
                (reach_init "Ann" "u1")))).
  - vm_compute. reflexivity.
  - reflexivity.
Defined.

End SessionFacts.

(** ** A provider without a user id *)

Section Dormant.

Lemma dormant_step e s : setsUserId e = false → dormant s → dormant (step e s).
Proof.
  intros He (Huid & Hme & Hst & Hl & Hheap & Hpend & Hic & Hmc & Hsid & Hpeers).
  destruct e; try discriminate; simpl.
  - unfold runIdentityEffect, runIdentityCleanup. rewrite Hic.
    unfold identityEffect. rewrite Huid. by repeat split.
  - by repeat split.
  - unfold sharingEffect. rewrite Hsid. by repeat split.
  - unfold runMediaEffect, runMediaCleanup. rewrite Hmc.
    unfold mediaEffect. rewrite Hme. by repeat split.
  - unfold runIdentityCleanup. rewrite Hic. unfold runMediaCleanup. rewrite Hmc.
    by repeat split.
  - unfold cameraSettled. rewrite Hpend. by repeat split.
  - unfold wsReceive. rewrite Hl. by repeat split.
  - unfold incomingCall. rewrite Hheap. by repeat split.
  - unfold remoteStream. rewrite Hheap. by repeat split.
  - unfold shareScreen, switchStream, allocStream. rewrite Hsid. simpl.
    destruct capture; simpl; rewrite ?Hme; by repeat split.
  - unfold handleCameraToggle, handleCameraToggleOf. rewrite Hst. by repeat split.
  - unfold handleAudioToggle, handleAudioToggleOf. rewrite Hst. by repeat split.
  - by repeat split.
  - by repeat split.
  - unfold peerDisconnect. rewrite Hheap. by repeat split.
  - unfold peerDestroy. rewrite Hheap. by repeat split.
  - unfold closeConnection. rewrite Hheap. by repeat split.
Qed.

(** X7. Without a user id the provider stays dormant whatever else happens:
    as long as the user id is not set there is no peer, no subscription, no
    camera request and no stream, the registry is empty and nobody shares. *)
Theorem no_user_id_no_session name events :
  forallb (fun e => negb (setsUserId e)) events = true →
  dormant (run events (initialRoom name "")).
Proof.
  intros Hev. unfold run.
  assert (dormant (initialRoom name "")) as Hd by (by repeat split).
  revert Hd. generalize (initialRoom name ""). 
  induction events as [|e events IH]; intros s Hd; [done|].
  simpl in *. apply andb_prop in Hev as [He Hev].
  apply negb_true_iff in He.
  apply IH; [done|]. by apply dormant_step.
Qed.

Lemma no_user_id_no_session_witness :
  dormant (run [RunIdentityEffect (Resolves Scenario.camera); RunMediaEffect;
                Receive (UserJoined "u2" "Bo"); ClickCamera;
                ClickShareScreen (Resolves Scenario.screen)]
               (initialRoom "Ann" "")).
Proof.
  apply (no_user_id_no_session "Ann"). reflexivity.
Defined.

End Dormant.

(** ** Flag and tracks in lockstep *)

Section Lockstep.

Lemma cameraInSync_alone : cameraInSync Scenario.alone.
Proof.
  intros st r Hst Hr. vm_compute in Hst. injection Hst as <-.
  assert (r = 0) as ->.
  { vm_compute in Hr. inversion Hr as [|? ? ? H']; [done|inversion H']. }
  reflexivity.
Defined.

(** X8. In a session, if [isCameraOn] agrees with the enabled flag of every
    video track of the local stream, it still does after a camera toggle. *)
Theorem camera_toggle_keeps_sync s :
  Reachable s → cameraInSync s → cameraInSync (handleCameraToggle s).
Proof.
  intros Hr Hsync st r. rewrite handleCameraToggle_closed.
  destruct (stream s) as [st0|] eqn:Hst; [|by apply Hsync].
  destruct (getVideoTracks (trackHeap s) st0) as [|r0 tracks] eqn:Htr;
    [by apply Hsync|].
  cbn [stream trackHeap isCameraOn set_isCameraOn set_trackHeap].
  rewrite Hst. intros [= <-]. unfold getVideoTracks in *.
  rewrite filter_hasKind_flipAll, Htr. intros Hin.
  destruct (sinv_stream s (Reachable_SessionInv s Hr) st0 Hst) as [Hnd _].
  rewrite flipAll_lookup_in.
  - specialize (Hsync st0 r Hst). unfold getVideoTracks in Hsync.
    rewrite Htr in Hsync. specialize (Hsync Hin).
    destruct (trackHeap s !! r) as [t|]; [|done]. simpl in *. congruence.
  - rewrite <- Htr. by apply NoDup_filter.
  - done.
Qed.

Lemma camera_toggle_keeps_sync_witness :
  cameraInSync (handleCameraToggle Scenario.alone).
Proof.
  apply (camera_toggle_keeps_sync Scenario.alone).
  - exact (reach_step RunMediaEffect _
            (reach_step CameraSettled _
              (reach_step (RunIdentityEffect (Resolves Scenario.camera)) _
                (reach_init "Ann" "u1")))).
  - exact cameraInSync_alone.
Defined.

End Lockstep.

(** ** More on screen sharing *)

Section MoreSharing.

Lemma switchStream_frame st s :
  let s' := (switchStream st s).1 in
  stream s' = stream s ∧ screenStream s' = screenStream s ∧ peers s' = peers s ∧
  me s' = me s ∧ wsEmitted s' = wsEmitted s ∧ roomId s' = roomId s ∧
  isCameraOn s' = isCameraOn s ∧ isAudioOn s' = isAudioOn s ∧
  trackHeap s' = trackHeap s ∧ escaped s' = escaped s.
Proof.
  simpl. unfold switchStream. by repeat case_match.
Qed.

(** X9. [shareScreen] never stores a stream in the [stream] cell, also not
    the fresh camera stream of the stop path, and never touches the registry,
    the flags or a track that exists: new tracks are only added.  A capture
    that fails (the picker is cancelled, the permission denied) changes nothing
    but the error list: the failure is not handled. *)
Theorem shareScreen_frame capture s :
  let s' := shareScreen capture s in
  stream s' = stream s ∧ peers s' = peers s ∧ me s' = me s ∧
  isCameraOn s' = isCameraOn s ∧ isAudioOn s' = isAudioOn s ∧
  wsEmitted s' = wsEmitted s ∧ roomId s' = roomId s ∧
  trackHeap s `prefix_of` trackHeap s' ∧
  (∀ err, capture = Rejects err ∨ capture = SyncThrow err → s' = escape err s).
Proof.
  simpl. unfold shareScreen, allocStream.
  destruct capture as [err|tracks|err].
  1,3: destruct (truthy (screenSharingId s)); repeat split; try done;
       intros e [[= <-]|[= <-]]; done.
  assert (∀ x thrown, switchStream {| trackRefs := seq (length (trackHeap s)) (length tracks) |}
                 (set_trackHeap (trackHeap s ++ tracks) s) = (x, thrown) →
          stream x = stream s ∧ peers x = peers s ∧ me x = me s ∧
          isCameraOn x = isCameraOn s ∧ isAudioOn x = isAudioOn s ∧
          wsEmitted x = wsEmitted s ∧ roomId x = roomId s ∧
          trackHeap x = trackHeap s ++ tracks) as Hsw.
  { intros x thrown Heq.
    pose proof (switchStream_frame {| trackRefs := seq (length (trackHeap s)) (length tracks) |}
                  (set_trackHeap (trackHeap s ++ tracks) s)) as Hf.
    rewrite Heq in Hf. simpl in Hf. tauto. }
  destruct (switchStream _ _) as [x thrown] eqn:Heq.
  destruct (Hsw x thrown eq_refl) as (? & ? & ? & ? & ? & ? & ? & Hheap).
  destruct (truthy (screenSharingId s)), thrown; simpl; rewrite ?Hheap;
    repeat split; try done; try (by apply prefix_app_r);
    intros e [?|?]; discriminate.
Qed.

Lemma shareScreen_frame_witness :
  shareScreen (Rejects "NotAllowedError") Scenario.inCall
  = escape "NotAllowedError" Scenario.inCall.
Proof.
  refine (proj2 (proj2 (proj2 (proj2 (proj2 (proj2 (proj2 (proj2
            (shareScreen_frame (Rejects "NotAllowedError") Scenario.inCall))))))))
            "NotAllowedError" (or_introl eq_refl)).
Defined.

End MoreSharing.

(** ** Track substitution *)

Section Substitution.

(** X11. [replaceVideoTrack] gives the new track to the first sender that
    carries a video track and to no other: senders before it (audio, empty)
    and all senders after it are untouched.  If that sender is stopped,
    nothing changes and the rejection is written to the console; without a
    video sender nothing happens at all. *)
Theorem replaceVideoTrack_first_video heap vt :
  (∀ senders, Forall (fun x => isVideoSender heap x = false) senders →
     replaceVideoTrack heap vt senders = (senders, [])) ∧
  (∀ pre sd post,
     Forall (fun x => isVideoSender heap x = false) pre →
     isVideoSender heap sd = true →
     replaceVideoTrack heap vt (pre ++ sd :: post)
     = if senderStopped sd
       then (pre ++ sd :: post, [ConsoleError "InvalidStateError"])
       else (pre ++ {| senderTrack := Some vt; senderStopped := false |} :: post, [])).
Proof.
  split.
  - induction 1 as [|x senders Hx _ IH]; [done|].
    simpl. by rewrite Hx, IH.
  - intros pre sd post Hpre Hsd.
    induction Hpre as [|x pre Hx _ IH]; simpl.
    + rewrite Hsd. by destruct (senderStopped sd).
    + rewrite Hx, IH. by destruct (senderStopped sd).
Qed.

Lemma replaceVideoTrack_first_video_witness :
  replaceVideoTrack Scenario.camera 7
    [{| senderTrack := Some 1; senderStopped := false |};
     {| senderTrack := Some 0; senderStopped := false |};
     {| senderTrack := Some 0; senderStopped := false |}]
  = ([{| senderTrack := Some 1; senderStopped := false |};
      {| senderTrack := Some 7; senderStopped := false |};
      {| senderTrack := Some 0; senderStopped := false |}], []).
Proof.
  refine (proj2 (replaceVideoTrack_first_video Scenario.camera 7)
            [{| senderTrack := Some 1; senderStopped := false |}]
            {| senderTrack := Some 0; senderStopped := false |}
            [{| senderTrack := Some 0; senderStopped := false |}] _ _).
  - by repeat constructor.
  - reflexivity.
Defined.

Lemma objectOrder_perm cs : objectOrder cs ≡ₚ seq 0 (length cs).
Proof.
  unfold objectOrder. simpl. rewrite merge_sort_Permutation.
  apply filter_app_complement.
Qed.

Lemma objectOrder_elem cs i : i ∈ objectOrder cs ↔ (i < length cs)%nat.
Proof. rewrite objectOrder_perm, elem_of_seq. lia. Qed.

Lemma switchLoop_throws heap vt order :
  ∀ cs i e, i ∈ order → cs !! i = Some e → ¬ established e →
    (switchLoop heap vt order cs).2 = Some "TypeError".
Proof.
  induction order as [|i0 rest IH]; intros cs i e Hin Hi Hbad.
  { by apply elem_of_nil in Hin. }
  simpl. destruct (cs !! i0) as [[k [|c0 more]]|] eqn:H0; [done| |].
  - destruct (hasPeerConnection c0) eqn:Hpc; [|done].
    destruct (replaceVideoTrack heap vt (connSenders c0)) as [sds out0].
    assert (i ≠ i0) as Hne.
    { intros ->. rewrite H0 in Hi. injection Hi as <-. by apply Hbad. }
    apply elem_of_cons in Hin as [?|Hin]; [done|].
    specialize (IH (<[i0 := (k, set_connSenders sds c0 :: more)]> cs) i e Hin).
    rewrite list_lookup_insert_ne in IH by done. specialize (IH Hi Hbad).
    by destruct (switchLoop heap vt rest _) as [[cs' out] thrown].
  - assert (i ≠ i0) as Hne by (intros ->; congruence).
    apply elem_of_cons in Hin as [?|Hin]; [done|]. by eapply IH.
Qed.

Lemma switchLoop_established heap vt order :
  NoDup order →
  ∀ cs, (∀ i e, i ∈ order → cs !! i = Some e → established e) →
    (switchLoop heap vt order cs).2 = None ∧
    ∀ i, (switchLoop heap vt order cs).1.1 !! i
         = if bool_decide (i ∈ order) then replaceOnFirst heap vt <$> cs !! i
           else cs !! i.
Proof.
  induction 1 as [|i0 rest Hnotin _ IH]; intros cs Hok.
  { split; [done|]. intros i. rewrite bool_decide_eq_false_2; [done|].
    apply not_elem_of_nil. }
  simpl. destruct (cs !! i0) as [[k [|c0 more]]|] eqn:H0.
  - destruct (Hok i0 _ (list_elem_of_here _ _) H0).
  - pose proof (Hok i0 _ (list_elem_of_here _ _) H0) as Hpc.
    unfold established in Hpc. simpl in Hpc. rewrite Hpc.
    destruct (replaceVideoTrack heap vt (connSenders c0)) as [sds out0] eqn:Hr.
    destruct (IH (<[i0 := (k, set_connSenders sds c0 :: more)]> cs)) as [Hthrown Hlook].
    { intros i e Hin Hi. assert (i ≠ i0) as Hne by (by intros ->).
      rewrite list_lookup_insert_ne in Hi by done.
      apply (Hok i e); [by apply list_elem_of_further|done]. }
    destruct (switchLoop heap vt rest _) as [[cs' out] thrown]. simpl in *.
    split; [done|]. intros i. rewrite Hlook.
    destruct (decide (i = i0)) as [->|Hne].
    + rewrite (bool_decide_eq_false_2 (i0 ∈ rest)) by done.
      rewrite bool_decide_eq_true_2 by apply list_elem_of_here.
      rewrite list_lookup_insert_eq by (by eapply lookup_lt_Some).
      rewrite H0. simpl. unfold replaceOnFirst. simpl. by rewrite Hr.
    + rewrite list_lookup_insert_ne by done.
      rewrite (bool_decide_ext (i ∈ i0 :: rest) (i ∈ rest)); [done|].
      rewrite elem_of_cons. split; [by intros [?|?]|by right].
  - destruct (IH cs) as [Hthrown Hlook].
    { intros i e Hin Hi. apply (Hok i e); [by apply list_elem_of_further|done]. }
    split; [done|]. intros i. rewrite Hlook.
    destruct (decide (i = i0)) as [->|Hne].
    + rewrite (bool_decide_eq_false_2 (i0 ∈ rest)) by done.
      rewrite bool_decide_eq_true_2 by apply list_elem_of_here.
      by rewrite H0.
    + rewrite (bool_decide_ext (i ∈ i0 :: rest) (i ∈ rest)); [done|].
      rewrite elem_of_cons. split; [by intros [?|?]|by right].
Qed.

(** X12. When every array of [me.connections] starts with a connection that
    has a peer connection (a call placed from here, or an answered one), the
    loop of [switchStream] throws nothing and changes, for every remote, the
    senders of [connection[0]] only, whatever the order in which
    [Object.values] visits the entries: a second connection to the same remote
    keeps its senders, and no connection is added, dropped or moved. *)
Theorem switchConnections_first_only heap vt cs :
  Forall established cs →
  (switchConnections heap (Some vt) cs).1.1 = map (replaceOnFirst heap vt) cs ∧
  (switchConnections heap (Some vt) cs).2 = None.
Proof.
  intros Hok. simpl.
  destruct (switchLoop_established heap vt (objectOrder cs)) with (cs := cs)
    as [Hthrown Hlook].
  { rewrite objectOrder_perm. apply NoDup_seq. }
  { intros i e _ Hi. rewrite Forall_lookup in Hok. by apply (Hok i). }
  split; [|done]. apply list_eq. intros i. rewrite Hlook, list_lookup_fmap.
  case_bool_decide as Hin; [done|].
  rewrite objectOrder_elem in Hin.
  by rewrite lookup_ge_None_2 by lia.
Qed.

Lemma switchConnections_first_only_witness :
  (switchConnections Scenario.camera (Some 0)
     [("u2", [placedCall "u2" {| trackRefs := [0; 1] |} "Ann";
              placedCall "u2" {| trackRefs := [0; 1] |} "Ann"]);
      ("7", [placedCall "7" {| trackRefs := [0; 1] |} "Ann"])]).2 = None.
Proof.
  refine (proj2 (switchConnections_first_only Scenario.camera 0 _ _)).
  constructor; [reflexivity|]. constructor; [reflexivity|]. constructor.
Defined.

Lemma set_peerConnections_id p : set_peerConnections (peerConnections p) p = p.
Proof. by destruct p. Qed.

(** X13. A new stream without a video track (an audio-only capture) leaves
    every connection as it is, yet [switchStream] still announces the peer as
    the sharer. *)
Theorem switchStream_without_video st s h p :
  me s = Some h → peerHeap s !! h = Some p →
  getVideoTracks (trackHeap s) st = [] →
  switchStream st s = (set_screenSharingId (default "" (peerObjId p)) s, None).
Proof.
  intros Hme Hp Hnone. unfold switchStream. rewrite Hme, Hp, Hnone. simpl.
  rewrite set_peerConnections_id.
  rewrite list_insert_id by done. rewrite app_nil_r. by destruct s.
Qed.

Lemma switchStream_without_video_witness :
  ∃ p, peerHeap Scenario.inCall !! 0 = Some p ∧
       switchStream {| trackRefs := [1] |} Scenario.inCall
       = (set_screenSharingId (default "" (peerObjId p)) Scenario.inCall, None).
Proof.
  eexists. split; [vm_compute; reflexivity|].
  apply (switchStream_without_video {| trackRefs := [1] |} Scenario.inCall 0);
    vm_compute; reflexivity.
Defined.

Lemma switchConnections_empty_array heap vt cs k :
  (k, []) ∈ cs → (switchConnections heap (Some vt) cs).2 = Some "TypeError".
Proof.
  intros [i Hi]%list_elem_of_lookup. simpl.
  apply (switchLoop_throws heap vt (objectOrder cs) cs i (k, [])); [|done|tauto].
  apply objectOrder_elem. by eapply lookup_lt_Some.
Qed.

(** X14. If [me.connections] holds an empty array and the captured screen
    has a video track, starting a share ends in an unhandled [TypeError]:
    [screenSharingId] is already the peer's id, but [screenStream] is not
    stored. *)
Theorem share_with_empty_connection_array tracks s h p k vt :
  me s = Some h → peerHeap s !! h = Some p → (k, []) ∈ peerConnections p →
  truthy (screenSharingId s) = false →
  head (getVideoTracks (trackHeap s ++ tracks)
          {| trackRefs := seq (length (trackHeap s)) (length tracks) |}) = Some vt →
  let s' := shareScreen (Resolves tracks) s in
  screenSharingId s' = default "" (peerObjId p) ∧
  screenStream s' = screenStream s ∧
  escaped s' = escaped s ++ ["TypeError"].
Proof.
  intros Hme Hp Hk Hsid Hvt. simpl.
  unfold shareScreen, allocStream, switchStream. rewrite Hsid. simpl.
  rewrite Hme, Hp, Hvt.
  pose proof (switchConnections_empty_array (trackHeap s ++ tracks) vt
                (peerConnections p) k Hk) as Hthrow.
  destruct (switchConnections _ _ _) as [[cs out] thrown]. simpl in Hthrow.
  by rewrite Hthrow.
Qed.

Lemma share_with_empty_connection_array_witness :
  let s' := shareScreen (Resolves Scenario.screen) afterHangUp in
  screenSharingId s' = "u1" ∧ screenStream s' = None ∧ escaped s' = ["TypeError"].
Proof.
  apply (share_with_empty_connection_array Scenario.screen afterHangUp 0
           (set_peerConnections [("u2", [])] (newPeer "u1")) "u2" 2).
  - vm_compute; reflexivity.
  - vm_compute; reflexivity.
  - apply list_elem_of_here.
  - vm_compute; reflexivity.
  - vm_compute; reflexivity.
Defined.

(** [Object.values] visits the array-index keys first, in ascending numeric
    order, then the other keys as inserted: here "0", "9", "10", then "u2" and
    "07". *)
Example objectOrder_indices_first :
  objectOrder [("u2", []); ("10", []); ("9", []); ("07", []); ("0", [])] = [4; 2; 1; 0; 3].
Proof. vm_compute. reflexivity. Qed.

(** Bo's call arrives before Ann's camera is granted, so no [on("call")]
    listener answers it and it has no peer connection; when Ann then shares
    her screen, the loop of [switchStream] throws on it. *)
Example share_with_unanswered_call :
  let s := run [RunIdentityEffect (Resolves Scenario.camera); IncomingCall 0 "u2" "Bo";
                CameraSettled; ClickShareScreen (Resolves Scenario.screen)] Scenario.ann in
  escaped s = ["TypeError"] ∧ screenSharingId s = "u1" ∧ screenStream s = None.
Proof. vm_compute. by repeat split. Qed.

(** A user id PeerJS refuses (it has a dot) gives a peer without id: sharing
    the screen then sets [screenSharingId] to the empty string. *)
Example share_with_invalid_id :
  let s := run [RunIdentityEffect (Resolves Scenario.camera); CameraSettled; RunMediaEffect;
                ClickShareScreen (Resolves Scenario.screen)] (initialRoom "Ann" "u.1") in
  (peerObjId <$> peerHeap s !! 0) = Some None ∧ screenSharingId s = "".
Proof. vm_compute. by repeat split. Qed.

(** Bo hangs up: PeerJS takes his connection out of [me.connections] and
    leaves the emptied array behind. *)
Example hang_up_leaves_empty_array :
  peerConnections <$> peerHeap (step (ConnectionClosed 0 "u2" 0) Scenario.inCall) !! 0
  = Some [("u2", [])].
Proof. vm_compute. reflexivity. Qed.

End Substitution.

(** ** Placing and receiving calls *)

Section Calls.

Lemma connectionsWith_addConnection k c cs :
  connectionsWith k (addConnection k c cs) = connectionsWith k cs ++ [c].
Proof.
  induction cs as [|[k' conns] cs IH]; simpl.
  - by rewrite bool_decide_eq_true_2.
  - case_bool_decide; simpl.
    + by rewrite bool_decide_eq_true_2.
    + by rewrite bool_decide_eq_false_2.
Qed.

Lemma connectionsWith_addConnection_ne k k' c cs :
  k' ≠ k → connectionsWith k' (addConnection k c cs) = connectionsWith k' cs.
Proof.
  intros Hne. induction cs as [|[k0 conns] cs IH]; simpl.
  - by rewrite bool_decide_eq_false_2.
  - destruct (decide (k0 = k)) as [->|Hk].
    + rewrite bool_decide_eq_true_2 by done. simpl.
      by rewrite !bool_decide_eq_false_2.
    + rewrite (bool_decide_eq_false_2 (k0 = k)) by done. simpl.
      case_bool_decide; [done|apply IH].
Qed.

Lemma connectionsWith_alterCall f k cs :
  connectionsWith k (alterCall f k cs)
  = alter f (pred (length (connectionsWith k cs))) (connectionsWith k cs).
Proof.
  induction cs as [|[k' conns] cs IH]; [done|].
  unfold alterCall in *. simpl. case_bool_decide; simpl.
  - by rewrite bool_decide_eq_true_2.
  - by rewrite bool_decide_eq_false_2.
Qed.

Lemma connectionsWith_alterCall_ne f k k' cs :
  k' ≠ k → connectionsWith k' (alterCall f k cs) = connectionsWith k' cs.
Proof.
  intros Hne. induction cs as [|[k0 conns] cs IH]; [done|].
  unfold alterCall in *. simpl. destruct (decide (k0 = k)) as [->|Hk].
  - rewrite bool_decide_eq_true_2 by done. simpl.
    rewrite !bool_decide_eq_false_2 by done. apply IH.
  - rewrite (bool_decide_eq_false_2 (k0 = k)) by done. simpl.
    case_bool_decide; [done|apply IH].
Qed.

Lemma alter_last {A} (f : A → A) (l : list A) x :
  alter f (pred (length (l ++ [x]))) (l ++ [x]) = l ++ [f x].
Proof.
  rewrite length_app. simpl.
  replace (pred (length l + 1)) with (length l + 0)%nat by lia.
  by rewrite alter_app_r.
Qed.

Lemma single_join_listener s l :
  SessionInv s → l ∈ wsListeners s → l.1 = "user-joined" → joinListeners s = [l].
Proof.
  intros HI Hl Hn. pose proof (sinv_join_one s HI) as Hone.
  assert (l ∈ joinListeners s) as Hin by (by apply list_elem_of_filter).
  destruct (joinListeners s) as [|x [|y rest]]; simpl in Hone.
  - by apply elem_of_nil in Hin.
  - by apply list_elem_of_singleton in Hin as ->.
  - lia.
Qed.

Lemma receive_user_joined_at s h st localName peerId name :
  Reachable s → ("user-joined", on_user_joined h st localName) ∈ wsListeners s →
  wsReceive (UserJoined peerId name) s = userJoined h st localName peerId name s.
Proof.
  intros Hr Hl. pose proof (Reachable_SessionInv s Hr) as HI.
  pose proof (single_join_listener s _ HI Hl eq_refl) as Hj.
  unfold wsReceive.
  rewrite (deliver_filter _ (fun l => l.1 = "user-joined")).
  2: { intros l _ Hnot. done. }
  fold (joinListeners s). by rewrite Hj.
Qed.

Lemma receive_user_joined s h st localName peerId name p :
  Reachable s → ("user-joined", on_user_joined h st localName) ∈ wsListeners s →
  peerHeap s !! h = Some p → peerDisconnected p = false →
  wsReceive (UserJoined peerId name) s
  = dispatch (addPeerNameAction peerId name)
      (set_peerHeap
         (<[h := set_peerConnections
                   (addConnection peerId (placedCall peerId st localName)
                      (peerConnections p)) p]> (peerHeap s)) s).
Proof.
  intros Hr Hl Hp Hd. rewrite (receive_user_joined_at s h st localName) by done.
  unfold userJoined, outboundCall. by rewrite Hp, Hd.
Qed.

Lemma receive_user_joined_closed s h st localName peerId name p :
  Reachable s → ("user-joined", on_user_joined h st localName) ∈ wsListeners s →
  peerHeap s !! h = Some p → peerDisconnected p = true →
  wsReceive (UserJoined peerId name) s = escape "TypeError" s.
Proof.
  intros Hr Hl Hp Hd. rewrite (receive_user_joined_at s h st localName) by done.
  unfold userJoined, outboundCall. by rewrite Hp, Hd.
Qed.

(** X15. In a session, a user-joined message that finds the media effect's
    listener is handled by that listener alone, with the peer, the stream and
    the user name its closure captured.  While that peer is connected to the
    signaling server, exactly one call is placed:
    [me.connections[peerId]] gets one more connection, at its end, with one
    sender per track of that stream; the connections to other remotes and all
    other peers are untouched; the registry receives one [addPeerNameAction];
    nothing is thrown.  Once the peer has been disconnected or destroyed,
    [me.call] returns [undefined]: the handler throws a [TypeError], no call is
    placed and the registry does not learn the name. *)
Theorem user_joined_places_one_call s h st localName peerId name p :
  Reachable s → ("user-joined", on_user_joined h st localName) ∈ wsListeners s →
  peerHeap s !! h = Some p →
  let s' := wsReceive (UserJoined peerId name) s in
  (peerDisconnected p = false →
     peers s' = peersReducer (peers s) (addPeerNameAction peerId name) ∧
     escaped s' = escaped s ∧
     ∃ p', peerHeap s' = <[h := p']> (peerHeap s) ∧
       connectionsWith peerId (peerConnections p')
       = connectionsWith peerId (peerConnections p) ++ [placedCall peerId st localName] ∧
       ∀ k, k ≠ peerId →
         connectionsWith k (peerConnections p') = connectionsWith k (peerConnections p)) ∧
  (peerDisconnected p = true →
     peers s' = peers s ∧ peerHeap s' = peerHeap s ∧
     escaped s' = escaped s ++ ["TypeError"]).
Proof.
  intros Hr Hl Hp. simpl. split; intros Hd.
  - rewrite (receive_user_joined s h st localName peerId name p) by done.
    repeat split.
    exists (set_peerConnections
              (addConnection peerId (placedCall peerId st localName) (peerConnections p)) p).
    repeat split.
    + simpl. apply connectionsWith_addConnection.
    + intros k Hk. simpl. by apply connectionsWith_addConnection_ne.
  - by rewrite (receive_user_joined_closed s h st localName peerId name p).
Qed.

Lemma user_joined_places_one_call_witness :
  let s := step (PeerDisconnected 0) Scenario.alone in
  escaped (wsReceive (UserJoined "u2" "Bo") s) = escaped s ++ ["TypeError"].
Proof.
  refine (proj2 (proj2 (proj2 (user_joined_places_one_call
            (step (PeerDisconnected 0) Scenario.alone) 0
            {| trackRefs := [0; 1] |} "Ann" "u2" "Bo" _ _ _ _) _))).
  - exact (reach_step (PeerDisconnected 0) _
            (reach_step RunMediaEffect _
              (reach_step CameraSettled _
                (reach_step (RunIdentityEffect (Resolves Scenario.camera)) _
                  (reach_init "Ann" "u1"))))).
  - vm_compute. do 6 apply list_elem_of_further. apply list_elem_of_here.
  - vm_compute. reflexivity.
  - reflexivity.
Defined.

Lemma answeredBy_peer hs c : connPeer (answeredBy hs c) = connPeer c.
Proof.
  revert c. induction hs as [|[st] hs IH]; intros c; [done|].
  unfold answeredBy in *. simpl. by rewrite IH.
Qed.

Lemma answeredBy_handlers hs c :
  connStreamHandlers (answeredBy hs c)
  = connStreamHandlers c ++ replicate (length hs) (connPeer c).
Proof.
  revert c. induction hs as [|[st] hs IH]; intros c.
  - simpl. by rewrite app_nil_r.
  - unfold answeredBy in *. simpl. rewrite IH. simpl. by rewrite <- app_assoc.
Qed.

Lemma answeredBy_stream hs c :
  connLocalStream (answeredBy hs c)
  = match connLocalStream c with
    | Some old => Some old
    | None => handlerStream <$> head hs
    end.
Proof.
  revert c. induction hs as [|[st] hs IH]; intros c.
  - simpl. by destruct (connLocalStream c).
  - unfold answeredBy in *. simpl. rewrite IH. simpl.
    by destruct (connLocalStream c).
Qed.

Lemma onCall_fold h caller name hs :
  ∀ acc q old c,
    peerHeap acc !! h = Some q →
    connectionsWith caller (peerConnections q) = old ++ [c] →
    let acc' := foldl (fun a ch => match ch with
                                   | answerWith st => onCall h caller name st a
                                   end) acc hs in
    peers acc'
    = foldl (fun ps _ => peersReducer ps (addPeerNameAction caller name)) (peers acc) hs ∧
    ∃ q', peerHeap acc' !! h = Some q' ∧
          connectionsWith caller (peerConnections q') = old ++ [answeredBy hs c] ∧
          peerCallHandlers q' = peerCallHandlers q ∧
          ∀ k, k ≠ caller →
            connectionsWith k (peerConnections q') = connectionsWith k (peerConnections q).
Proof.
  induction hs as [|[st] hs IH]; intros acc q old c Hq Hc; simpl.
  { split; [done|]. by exists q. }
  set (q1 := set_peerConnections
               (alterCall (answerCall st) caller (peerConnections q)) q).
  assert (peerHeap (onCall h caller name st acc) !! h = Some q1) as Hq1.
  { unfold onCall, dispatch. simpl. by rewrite list_lookup_alter_eq, Hq. }
  assert (connectionsWith caller (peerConnections q1) = old ++ [answerCall st c]) as Hc1.
  { unfold q1. simpl. rewrite connectionsWith_alterCall, Hc. apply alter_last. }
  destruct (IH (onCall h caller name st acc) q1 old (answerCall st c) Hq1 Hc1)
    as (Hpeers & q' & Hq' & Hc' & Hh' & Hother).
  split; [exact Hpeers|].
  exists q'. repeat split; try done.
  intros k Hk. rewrite (Hother k Hk). unfold q1. simpl.
  by apply connectionsWith_alterCall_ne.
Qed.

(** X16. An inbound call on a connected peer runs every registered
    [on("call")] listener: the registry receives one [addPeerNameAction] per
    listener, the call gets one stream callback per listener, and it is
    answered with the stream of the oldest listener ([call.answer] of the later
    ones is ignored); with no listener yet, the call is recorded and never
    answered.  The connection is appended to [me.connections[caller]]. *)
Theorem inbound_call_runs_every_listener s h p caller name :
  peerHeap s !! h = Some p → peerDisconnected p = false →
  let s' := incomingCall h caller name s in
  let c := answeredBy (peerCallHandlers p) (offeredCall caller name) in
  peers s'
  = foldl (fun ps _ => peersReducer ps (addPeerNameAction caller name)) (peers s)
          (peerCallHandlers p) ∧
  (∃ p', peerHeap s' !! h = Some p' ∧
         connectionsWith caller (peerConnections p')
         = connectionsWith caller (peerConnections p) ++ [c] ∧
         peerCallHandlers p' = peerCallHandlers p) ∧
  connLocalStream c = handlerStream <$> head (peerCallHandlers p) ∧
  connStreamHandlers c = replicate (length (peerCallHandlers p)) caller.
Proof.
  intros Hp Hd. simpl. unfold incomingCall. rewrite Hp, Hd.
  set (s1 := set_peerHeap _ s).
  set (p1 := set_peerConnections
               (addConnection caller (offeredCall caller name) (peerConnections p)) p).
  assert (peerHeap s1 !! h = Some p1) as Hp1.
  { unfold s1. simpl. apply list_lookup_insert_eq. by eapply lookup_lt_Some. }
  assert (connectionsWith caller (peerConnections p1)
          = connectionsWith caller (peerConnections p) ++ [offeredCall caller name]) as Hc1
    by apply connectionsWith_addConnection.
  destruct (onCall_fold h caller name (peerCallHandlers p) s1 p1 _ _ Hp1 Hc1)
    as (Hpeers & q' & Hq' & Hc' & Hh' & _).
  split; [exact Hpeers|]. split; [by exists q'|].
  split; [by rewrite answeredBy_stream|by rewrite answeredBy_handlers].
Qed.

Lemma inbound_call_runs_every_listener_witness :
  let s := run [RunMediaEffect; RunMediaEffect] Scenario.alone in
  ∃ p', peerHeap (incomingCall 0 "u3" "Cy" s) !! 0 = Some p' ∧
        map connStreamHandlers (connectionsWith "u3" (peerConnections p'))
        = [["u3"; "u3"; "u3"]].
Proof.
  simpl.
  destruct (inbound_call_runs_every_listener
              (run [RunMediaEffect; RunMediaEffect] Scenario.alone) 0
              (set_peerConnections []
                 (addCallHandler (answerWith {| trackRefs := [0; 1] |})
                 (addCallHandler (answerWith {| trackRefs := [0; 1] |})
                 (addCallHandler (answerWith {| trackRefs := [0; 1] |})
                    (newPeer "u1"))))) "u3" "Cy")
    as (_ & (p' & Hp' & Hc & _) & _ & _).
  - vm_compute; reflexivity.
  - reflexivity.
  - exists p'. split; [exact Hp'|]. rewrite Hc. vm_compute. reflexivity.
Defined.

(** X18. The outbound path end to end: in a session whose listener holds a
    connected peer, user-joined(peerId, name) followed by one delivery of the
    remote stream on the call just placed gives the registry first the name
    and then that stream, for the same id. *)
Theorem outbound_call_then_stream s h st localName peerId name tracks p :
  Reachable s → ("user-joined", on_user_joined h st localName) ∈ wsListeners s →
  peerHeap s !! h = Some p → peerDisconnected p = false →
  let s1 := wsReceive (UserJoined peerId name) s in
  let i := length (connectionsWith peerId (peerConnections p)) in
  let s2 := remoteStream h peerId i tracks s1 in
  peers s2
  = peersReducer (peersReducer (peers s) (addPeerNameAction peerId name))
      (addPeerStreamAction peerId
         {| trackRefs := seq (length (trackHeap s)) (length tracks) |}) ∧
  trackHeap s2 = trackHeap s ++ tracks.
Proof.
  intros Hr Hl Hp Hd. simpl.
  rewrite (receive_user_joined s h st localName peerId name p) by done.
  unfold remoteStream, dispatch. simpl.
  rewrite list_lookup_insert_eq by (by eapply lookup_lt_Some). simpl.
  rewrite connectionsWith_addConnection.
  rewrite lookup_app_r by done. rewrite Nat.sub_diag. simpl. done.
Qed.

Lemma outbound_call_then_stream_witness :
  ∃ p, peerHeap Scenario.alone !! 0 = Some p ∧
    peers (remoteStream 0 "u2" (length (connectionsWith "u2" (peerConnections p)))
             Scenario.camera (wsReceive (UserJoined "u2" "Bo") Scenario.alone))
    = peersReducer (peersReducer (peers Scenario.alone) (addPeerNameAction "u2" "Bo"))
        (addPeerStreamAction "u2" {| trackRefs := [2; 3] |}).
Proof.
  eexists. split; [vm_compute; reflexivity|].
  refine (proj1 (outbound_call_then_stream Scenario.alone 0 {| trackRefs := [0; 1] |}
                   "Ann" "u2" "Bo" Scenario.camera _ _ _ _ _)).
  - exact (reach_step RunMediaEffect _
            (reach_step CameraSettled _
              (reach_step (RunIdentityEffect (Resolves Scenario.camera)) _
                (reach_init "Ann" "u1")))).
  - vm_compute. do 6 apply list_elem_of_further. apply list_elem_of_here.
  - vm_compute. reflexivity.
  - reflexivity.
Defined.

End Calls.

(** ** More on the chat *)

Section MoreChat.

(** X17. A series of [sendMessage] calls emits one send-message event per
    call, in call order, each with its room id and record, after what was
    emitted before; and the reducer receives one [addMessageAction] per call,
    in the same order, with the same records. *)
Theorem sendAll_in_order calls (w : Chat.ChatWorld) :
  Chat.chatEmitted (sendAll calls w) = Chat.chatEmitted w ++ map sentEvent calls ∧
  Chat.chat (sendAll calls w)
  = foldl Chat.chatReducer (Chat.chat w)
          (map (fun c => Chat.addMessageAction (sentRecord c)) calls).
Proof.
  revert w. induction calls as [|[[[now message] room] who] calls IH]; intros w.
  - simpl. by rewrite app_nil_r.
  - unfold sendAll in *. simpl. destruct (IH (Chat.sendMessage now message room who w))
      as [He Hc].
    rewrite He, Hc. simpl. by rewrite <- app_assoc.
Qed.

End MoreChat.
